(** * Derusher: silence classification, range merging and the derush pipeline

    A shallow embedding of [app/derusher.py] (class [DerushWorker]).

    Conventions of the model.
    - Python floats are idealised as rationals ([Q]); the two operations of
      the classifier that leave the rationals ([np.sqrt] and [**]) are the
      fields of the class [FloatOps], so every theorem holds for whatever
      they compute.
    - Python's [max(a, b)] returns [a] unless [b > a], [min(a, b)] returns
      [a] unless [b < a]; both are written out, so results are the very
      arguments (Leibniz equality), not merely [Qeq] to them.
    - [sorted(..., key=...)] is a stable sort; it is modelled by the stable
      insertion sort on the key.
    - Exceptions are values of type [exn] (class and message) and stand
      for instances of [Exception], the ones [except Exception] catches;
      functions that may raise return [result].
    - The collaborators of a run (file system, transcoder, media and audio
      readers, progress callback) are a [World] whose answers may depend on
      the whole trace so far; the worker's methods run in a state and
      exception monad that records every call.  Logging is left out. *)

From Stdlib Require Import String Ascii DecimalString.
From Stdlib Require Import List Bool Arith ZArith QArith Qround Lia Lqa.
From Stdlib Require Import Sorting.Sorted.
Import ListNotations.

Open Scope string_scope.
Open Scope list_scope.
Open Scope Q_scope.

(** ** Python built-ins on floats *)

Definition Qlt_bool (x y : Q) : bool := negb (Qle_bool y x).

(** [max(a, b)]: the first argument unless the second is strictly larger. *)
Definition py_max (a b : Q) : Q := if Qlt_bool a b then b else a.

(** [min(a, b)]: the first argument unless the second is strictly smaller. *)
Definition py_min (a b : Q) : Q := if Qlt_bool b a then b else a.

(** ** Ranges and the range merger *)

(** A range is the tuple [(start, end)], in seconds. *)
Definition range : Type := (Q * Q)%type.

(** [self.min_segment_gap = 0.2] *)
Definition min_segment_gap : Q := 2 # 10.

(** Stable insertion on the key [x[0]]: an element goes in front of the
    first element whose start is not smaller than its own. *)
Fixpoint insert_by_start (r : range) (l : list range) : list range :=
  match l with
  | [] => [r]
  | h :: t =>
      if Qle_bool (fst r) (fst h) then r :: h :: t
      else h :: insert_by_start r t
  end.

(** [sorted(ranges, key=lambda x: x[0])] *)
Definition sorted_by_start (ranges : list range) : list range :=
  fold_right insert_by_start [] ranges.

(** The loop state of [merge_overlapping_ranges]:
    [merged], [current_start], [current_end]. *)
Definition merge_state : Type := (list range * Q * Q)%type.

(** One iteration of the [for start, end in sorted_ranges[1:]] loop. *)
Definition merge_step (st : merge_state) (r : range) : merge_state :=
  let '(merged, current_start, current_end) := st in
  let '(start, end_) := r in
  if Qle_bool start (current_end + min_segment_gap)
  then (merged, current_start, py_max current_end end_)
  else (merged ++ [(current_start, current_end)], start, end_).

Definition merge_overlapping_ranges (ranges : list range) : list range :=
  match ranges with
  | [] => []
  | _ :: _ =>
      match sorted_by_start ranges with
      | [] => []
      | (current_start, current_end) :: rest =>
          let '(merged, cs, ce) :=
            fold_left merge_step rest ([], current_start, current_end) in
          merged ++ [(cs, ce)]
      end
  end.

(** The sweep of the loop written by recursion on the remaining ranges;
    [sweep_spec] below shows that the loop computes it. *)
Fixpoint sweep (cs ce : Q) (rest : list range) : list range :=
  match rest with
  | [] => [(cs, ce)]
  | (s, e) :: t =>
      if Qle_bool s (ce + min_segment_gap)
      then sweep cs (py_max ce e) t
      else (cs, ce) :: sweep s e t
  end.

(** Order of two ranges by start time, and the gap relation between a
    range and a later one. *)
Definition start_le (a b : range) : Prop := fst a <= fst b.
Definition gap_before (a b : range) : Prop := snd a + min_segment_gap < fst b.

(** The output covers the two inputs [a1] and [a2] by one range: it is a
    single range, starting no later than both and ending no earlier than
    both. *)
Definition single_cover (a1 a2 : range) (out : list range) : Prop :=
  exists r, out = [r] /\
    fst r <= fst a1 /\ fst r <= fst a2 /\ snd a1 <= snd r /\ snd a2 <= snd r.

(** ** Exceptions *)

(** A Python exception: its class and its message. *)
Inductive exn : Type :=
  | ValueError (msg : string)
  | RuntimeError (msg : string)
  | FileNotFoundError (msg : string)
  | ZeroDivisionError (msg : string)
  | OSError (msg : string)
  | CalledProcessError (msg : string)
  | OtherException (cls msg : string).

Inductive result (A : Type) : Type :=
  | Ok (a : A)
  | Raise (e : exn).
Arguments Ok {A} a.
Arguments Raise {A} e.

Definition result_bind {A B : Type} (r : result A) (k : A -> result B)
  : result B :=
  match r with
  | Ok a => k a
  | Raise e => Raise e
  end.

(** ** Numbers *)

(** The float operations that leave the rationals: [np.sqrt(x)] and
    [b ** x]. *)
Class FloatOps : Type := {
  np_sqrt : Q -> Q;
  py_pow : Q -> Q -> Q
}.

(** [int(x)] on a float: truncation toward zero. *)
Definition py_int (x : Q) : Z := Z.quot (Qnum x) (Zpos (Qden x)).

(** [a // b] on ints. *)
Definition py_floordiv (a b : Z) : result Z :=
  if (b =? 0)%Z
  then Raise (ZeroDivisionError "integer division or modulo by zero")
  else Ok (a / b)%Z.

(** ** numpy *)

(** [ary[st:en]] for [0 <= st <= en]. *)
Definition slice {A : Type} (ary : list A) (st en : nat) : list A :=
  firstn (en - st) (skipn st ary).

(** [cumsum] of a list, starting from the running total [acc]. *)
Fixpoint cumsum_from (acc : nat) (l : list nat) : list nat :=
  match l with
  | [] => []
  | x :: t => (acc + x)%nat :: cumsum_from (acc + x) t
  end.

(** The section sizes of [np.array_split]:
    [extras * [Neach_section + 1] + (Nsections - extras) * [Neach_section]]
    with [Neach_section, extras = divmod(Ntotal, Nsections)]. *)
Definition section_sizes (ntotal nsections : Z) : list nat :=
  let neach := (ntotal / nsections)%Z in
  let extras := (ntotal mod nsections)%Z in
  repeat (Z.to_nat (neach + 1)) (Z.to_nat extras) ++
  repeat (Z.to_nat neach) (Z.to_nat (nsections - extras)).

(** [np.array_split(ary, Nsections)] on a one-dimensional array:
    [div_points] is the cumulative sum of [[0] + section_sizes] and section
    [i] is [ary[div_points[i]:div_points[i+1]]]. *)
Definition array_split {A : Type} (ary : list A) (nsections : Z)
  : result (list (list A)) :=
  if (nsections <=? 0)%Z
  then Raise (ValueError "number sections must be larger than 0.")
  else
    let div_points :=
      cumsum_from 0 (0%nat :: section_sizes (Z.of_nat (length ary)) nsections)
    in
    Ok (map (fun i => slice ary (nth i div_points 0%nat)
                               (nth (S i) div_points 0%nat))
            (seq 0 (Z.to_nat nsections))).

(** The sections cut one after the other, each of its size; [array_split]
    computes them ([array_split_sections] below). *)
Fixpoint take_sections {A : Type} (ary : list A) (sizes : list nat)
  : list (list A) :=
  match sizes with
  | [] => []
  | n :: t => firstn n ary :: take_sections (skipn n ary) t
  end.

Definition Qsum (l : list Q) : Q := fold_left Qplus l 0.

(** [np.mean(a)] *)
Definition np_mean (a : list Q) : Q :=
  Qsum a / inject_Z (Z.of_nat (length a)).

(** ** The worker and the silence classifier *)

(** The fields [DerushWorker.__init__] sets from its arguments
    ([temp_dir] is part of the run state, [progress_callback] of the
    world). *)
Record DerushWorker : Type := {
  video_path : string;
  min_silence_len : Q;
  silence_thresh : Q;
  max_thresh : Q;
  margin : Q
}.

(** [DerushWorker(video_path, min_silence_len, silence_thresh, max_thresh,
    margin_ms)]: the two durations are converted from ms to seconds. *)
Definition new_worker (path : string)
    (min_silence_len_ms silence_thresh_db max_thresh_db margin_ms : Q)
  : DerushWorker :=
  {| video_path := path;
     min_silence_len := min_silence_len_ms / 1000;
     silence_thresh := silence_thresh_db;
     max_thresh := max_thresh_db;
     margin := margin_ms / 1000 |}.

(** The defaults: [min_silence_len=400, silence_thresh=-45, max_thresh=-10,
    margin_ms=600]. *)
Definition default_worker (path : string) : DerushWorker :=
  new_worker path 400 (-45) (-10) 600.

(** [window_size = int(0.1 * sample_rate)] *)
Definition window_size (sample_rate : Z) : Z :=
  py_int ((1 # 10) * inject_Z sample_rate).

(** [np.array_split(audio_array, len(audio_array) // window_size)] *)
Definition split_windows (audio_array : list Q) (sample_rate : Z)
  : result (list (list Q)) :=
  result_bind
    (py_floordiv (Z.of_nat (length audio_array)) (window_size sample_rate))
    (fun n => array_split audio_array n).

(** The loop state of the grouping loop: [ranges], [start_i], [prev_i]. *)
Definition group_state : Type := (list range * nat * nat)%type.

(** Window index to seconds: [i * 0.1]. *)
Definition window_time (i : nat) : Q := inject_Z (Z.of_nat i) * (1 # 10).

Section Classifier.
Context {ops : FloatOps}.
Variable self : DerushWorker.

(** [np.sqrt(np.mean(window**2))] *)
Definition window_rms (window : list Q) : Q :=
  np_sqrt (np_mean (map (fun x => x * x) window)).

(** [10 ** (self.silence_thresh / 20)], [10 ** (self.max_thresh / 20)] *)
Definition min_threshold : Q := py_pow 10 (silence_thresh self / 20).
Definition max_threshold : Q := py_pow 10 (max_thresh self / 20).

(** [[i for i, r in enumerate(rms) if min_threshold < r < max_threshold]] *)
Definition valid_windows_of (rms : list Q) : list nat :=
  map fst
    (filter (fun ir => Qlt_bool min_threshold (snd ir) &&
                       Qlt_bool (snd ir) max_threshold)
            (combine (seq 0 (length rms)) rms)).

(** One iteration of [for i in valid_windows[1:]]. *)
Definition group_step (st : group_state) (i : nat) : group_state :=
  let '(ranges, start_i, prev_i) := st in
  if (1 <? Z.of_nat i - Z.of_nat prev_i)%Z then
    let end_i := prev_i in
    let start_time := py_max 0 (window_time start_i - margin self) in
    let end_time := window_time (end_i + 1) + margin self in
    let ranges' :=
      if Qle_bool (min_silence_len self) (end_time - start_time)
      then ranges ++ [(start_time, end_time)]
      else ranges in
    (ranges', i, i)
  else (ranges, start_i, i).

(** The ranges collected before the merge: the grouping loop and the
    last run, whose end alone is cut at [len(audio_array) / sample_rate]. *)
Definition collect_ranges (valid_windows : list nat) (len : nat)
    (sample_rate : Z) : list range :=
  match valid_windows with
  | [] => []
  | first :: others =>
      let '(ranges, start_i, prev_i) :=
        fold_left group_step others ([], first, first) in
      let end_time :=
        py_min (window_time (prev_i + 1) + margin self)
               (inject_Z (Z.of_nat len) / inject_Z sample_rate) in
      let start_time := py_max 0 (window_time start_i - margin self) in
      if Qle_bool (min_silence_len self) (end_time - start_time)
      then ranges ++ [(start_time, end_time)]
      else ranges
  end.

Definition detect_nonsilent (audio_array : list Q) (sample_rate : Z)
  : result (list range) :=
  result_bind (split_windows audio_array sample_rate) (fun windows =>
  let rms := map window_rms windows in
  let valid_windows := valid_windows_of rms in
  match valid_windows with
  | [] => Ok []
  | _ :: _ =>
      Ok (merge_overlapping_ranges
            (collect_ranges valid_windows (length audio_array) sample_rate))
  end).
End Classifier.

(** [len(audio) / sample_rate], the duration of the buffer in seconds. *)
Definition buffer_duration (audio_array : list Q) (sample_rate : Z) : Q :=
  inject_Z (Z.of_nat (length audio_array)) / inject_Z sample_rate.

(** The windows as the specification words them: consecutive windows of
    exactly [size] samples, a shorter rest at the end being dropped. *)
Fixpoint full_windows_fuel {A : Type} (fuel size : nat) (ary : list A)
  : list (list A) :=
  match fuel with
  | O => []
  | S fuel' =>
      if (size <=? length ary)%nat
      then firstn size ary :: full_windows_fuel fuel' size (skipn size ary)
      else []
  end.

Definition spec_windows {A : Type} (size : nat) (ary : list A)
  : list (list A) :=
  full_windows_fuel (length ary) size ary.

(** Float operations for the examples: exact on squares of rationals and
    on integer exponents, which is all the examples use (elsewhere the
    square root is the root of the integer parts and the exponent is
    rounded down). *)
Definition example_sqrt (x : Q) : Q :=
  let r := Qred x in Z.sqrt (Qnum r) # Pos.sqrt (Qden r).

Definition example_pow (b x : Q) : Q := Qpower b (Qfloor x).

Definition example_ops : FloatOps :=
  {| np_sqrt := example_sqrt; py_pow := example_pow |}.

(** An audio buffer of constant level: [n] samples of value [x]. *)
Definition level (x : Q) (n : nat) : list Q := repeat x n.

(** One second of audio at 8000 Hz: sound during the windows 0 to 5,
    silence during window 6, sound during the windows 7 to 9. *)
Definition gap_near_end_audio : list Q :=
  level (1 # 2) 4800 ++ level 0 800 ++ level (1 # 2) 2400.

(** [DerushWorker(path, 400, -40, 0, 600)]: the default durations, with
    thresholds of -40 dB (amplitude 0.01) and 0 dB (amplitude 1). *)
Definition example_worker (path : string) : DerushWorker :=
  new_worker path 400 (-40) 0 600.

(** ** Paths *)

(** [s[:n]] and [s[n:]] for [n >= 0]. *)
Fixpoint str_take (n : nat) (s : string) : string :=
  match n, s with
  | S n', String c t => String c (str_take n' t)
  | _, _ => EmptyString
  end.

Fixpoint str_drop (n : nat) (s : string) : string :=
  match n, s with
  | S n', String _ t => str_drop n' t
  | _, _ => s
  end.

(** [s.rfind(c)] for a one-character [c]: the last index of [c] in [s],
    or -1. *)
Fixpoint rfind (c : ascii) (s : string) : Z :=
  match s with
  | EmptyString => -1
  | String a t =>
      let r := rfind c t in
      if (0 <=? r)%Z then (r + 1)%Z
      else if Ascii.eqb a c then 0%Z else (-1)%Z
  end.

(** Whether every character of [s] is [c]. *)
Fixpoint all_chars (c : ascii) (s : string) : bool :=
  match s with
  | EmptyString => true
  | String a t => Ascii.eqb a c && all_chars c t
  end.

(** [os.path.splitext(p)] (posixpath): the extension starts at the last
    dot, provided that dot comes after the last slash and some character
    between the two is not a dot (the [while] loop of [_splitext] returns
    at the first such character). *)
Definition splitext (p : string) : string * string :=
  let sepIndex := rfind "/" p in
  let dotIndex := rfind "." p in
  if (sepIndex <? dotIndex)%Z &&
     negb (all_chars "."
             (str_take (Z.to_nat (dotIndex - (sepIndex + 1)))
                (str_drop (Z.to_nat (sepIndex + 1)) p)))
  then (str_take (Z.to_nat dotIndex) p, str_drop (Z.to_nat dotIndex) p)
  else (p, EmptyString).

(** [s.rstrip(c)] *)
Fixpoint rstrip (c : ascii) (s : string) : string :=
  match s with
  | EmptyString => EmptyString
  | String a t =>
      match rstrip c t with
      | EmptyString => if Ascii.eqb a c then EmptyString
                       else String a EmptyString
      | t' => String a t'
      end
  end.

(** [os.path.dirname(p)] (posixpath). *)
Definition dirname (p : string) : string :=
  let i := (rfind "/" p + 1)%Z in
  let head := str_take (Z.to_nat i) p in
  if negb (String.eqb head EmptyString) && negb (all_chars "/" head)
  then rstrip "/" head
  else head.

(** [os.path.join(a, b)] (posixpath) for two components. *)
Definition path_join (a b : string) : string :=
  match b with
  | String "/" _ => b
  | _ =>
      if String.eqb a EmptyString || Z.eqb (rfind "/" a)
                                          (Z.of_nat (String.length a) - 1)
      then (a ++ b)%string
      else (a ++ "/" ++ b)%string
  end.

(** [os.path.splitext(self.video_path)[0] + '_derushed.mp4'] *)
Definition output_path_of (video_path : string) : string :=
  (fst (splitext video_path) ++ "_derushed.mp4")%string.

(** [f'{i:04d}']: decimal, padded with zeros to four characters. *)
Definition format_04d (i : nat) : string :=
  let digits := NilEmpty.string_of_uint (Nat.to_uint i) in
  (string_of_list_ascii (repeat "0"%char (4 - String.length digits))
   ++ digits)%string.

(** ** The outside world of a run *)

(** What [sf.read] returns as data: a one-dimensional array, or one row of
    channel values per frame. *)
Inductive audio_data : Type :=
  | Mono (samples : list Q)
  | MultiChannel (frames : list (list Q)).

(** The attribute of the [VideoFileClip] the pipeline reads. *)
Record VideoClip : Type := { duration : Q }.

(** An ffmpeg command line of the worker.  The time arguments are kept as
    numbers; the command line prints them with three decimals. *)
Inductive ffmpeg_cmd : Type :=
  | FfmpegExtract (input output : string) (ss t : Q)
  | FfmpegConcat (list_file output : string).

(** The trace of a run: calls of the three worker methods the claims speak
    about, and every call that leaves the worker. *)
Inductive event : Type :=
  | CallExtractSegment (input output : string) (start_time end_time : Q)
  | CallConcatSegments (segment_files : list string) (output : string)
  | CallCleanupTempDirectory
  | ProgressCallback (value : Z)
  | Mkdtemp
  | OpenVideoFileClip (path : string)
  | NamedTemporaryFile
  | WriteAudiofile (path : string)
  | SfRead (path : string)
  | VideoClose
  | SubprocessRun (cmd : ffmpeg_cmd)
  | OsPathExists (path : string)
  | OsRemove (path : string)
  | OsListdir (path : string)
  | OsRmdir (path : string)
  | WriteFile (path : string) (lines : list string).

(** The collaborators of the worker.  Each answer may depend on everything
    that happened before (the trace so far), so a world can be any
    deterministic file system, transcoder and callback. *)
Record World : Type := {
  progress_callback : option (list event -> Z -> result unit);
  tempfile_mkdtemp : list event -> result string;
  video_file_clip : list event -> string -> result VideoClip;
  named_temporary_file : list event -> result string;
  write_audiofile : list event -> string -> result unit;
  sf_read : list event -> string -> result (audio_data * Z);
  video_close : list event -> result unit;
  subprocess_run : list event -> ffmpeg_cmd -> result unit;
  os_path_exists : list event -> string -> bool;
  os_remove : list event -> string -> result unit;
  os_listdir : list event -> string -> result (list string);
  os_rmdir : list event -> string -> result unit;
  write_file : list event -> string -> list string -> result unit
}.

(** The mutable part of a run: [self.temp_dir], the local
    [temp_audio_path] (read by the [except] block of [run]) and the trace. *)
Record run_state : Type := {
  temp_dir : option string;
  temp_audio_path : option string;
  trace : list event
}.

Definition initial_state : run_state :=
  {| temp_dir := None; temp_audio_path := None; trace := [] |}.

(** Computations that read and change the state and may raise; what was
    done before an exception stays done. *)
Definition M (A : Type) : Type := run_state -> result A * run_state.

Definition ret {A : Type} (a : A) : M A := fun st => (Ok a, st).

Definition raise {A : Type} (e : exn) : M A := fun st => (Raise e, st).

Definition bind {A B : Type} (m : M A) (k : A -> M B) : M B :=
  fun st =>
    match m st with
    | (Ok a, st') => k a st'
    | (Raise e, st') => (Raise e, st')
    end.

(** [try: m  except <those exceptions [handles] accepts> as e: h e] *)
Definition try_except {A : Type} (m : M A) (handles : exn -> bool)
    (h : exn -> M A) : M A :=
  fun st =>
    match m st with
    | (Ok a, st') => (Ok a, st')
    | (Raise e, st') => if handles e then h e st' else (Raise e, st')
    end.

Declare Scope run_scope.
Delimit Scope run_scope with run.
Notation "x <- m ;; k" := (bind m (fun x => k))
  (at level 61, m at next level, right associativity) : run_scope.
Notation "m ;;; k" := (bind m (fun _ => k))
  (at level 61, right associativity) : run_scope.

(** Record an event. *)
Definition emit (e : event) : M unit :=
  fun st =>
    (Ok tt, {| temp_dir := temp_dir st;
               temp_audio_path := temp_audio_path st;
               trace := trace st ++ [e] |}).

(** A call that leaves the worker: the world answers from the trace so
    far, and the call is recorded. *)
Definition call {A : Type} (e : event) (answer : list event -> result A)
  : M A :=
  fun st =>
    (answer (trace st),
     {| temp_dir := temp_dir st;
        temp_audio_path := temp_audio_path st;
        trace := trace st ++ [e] |}).

Definition set_temp_dir (d : string) : M unit :=
  fun st =>
    (Ok tt, {| temp_dir := Some d;
               temp_audio_path := temp_audio_path st;
               trace := trace st |}).

Definition set_temp_audio_path (p : string) : M unit :=
  fun st =>
    (Ok tt, {| temp_dir := temp_dir st;
               temp_audio_path := Some p;
               trace := trace st |}).

Definition get_temp_dir : M (option string) :=
  fun st => (Ok (temp_dir st), st).

Definition get_temp_audio_path : M (option string) :=
  fun st => (Ok (temp_audio_path st), st).

(** A function that returns or raises, run inside the pipeline. *)
Definition lift_result {A : Type} (r : result A) : M A := fun st => (r, st).

(** The exception classes the [except] clauses name. *)
Definition any_exception (e : exn) : bool := true.

Definition is_CalledProcessError (e : exn) : bool :=
  match e with CalledProcessError _ => true | _ => false end.

Definition is_FileNotFoundError (e : exn) : bool :=
  match e with FileNotFoundError _ => true | _ => false end.

(** Truth value of [path and ...] for an optional path: [None] and the
    empty string are false. *)
Definition truthy_path (p : option string) : option string :=
  match p with
  | Some (String c t) => Some (String c t)
  | _ => None
  end.

(** The messages of the exceptions the worker raises itself. *)
Definition no_segment_detected : exn :=
  ValueError "Aucun segment audio détecté avec ces paramètres".
Definition nothing_to_concat : exn :=
  ValueError "Aucun segment à concaténer".
Definition extraction_failed : exn :=
  RuntimeError "Échec de l'extraction du segment vidéo avec FFmpeg".
Definition concatenation_failed : exn :=
  RuntimeError "Échec de la concaténation des segments avec FFmpeg".

(** The line feed ending each line of the manifest. *)
Definition newline : string := String (ascii_of_nat 10) EmptyString.

(** [repr] of a list of strings without quotes or backslashes. *)
Definition repr_list (l : list string) : string :=
  ("[" ++ String.concat ", " (map (fun s => "'" ++ s ++ "'") l) ++ "]")%string.

Definition missing_segments (missing_files : list string) : exn :=
  FileNotFoundError
    ("Fichiers segments manquants: " ++ repr_list (firstn 5 missing_files)
     ++ "...")%string.

(** ** The worker's methods *)

Section Pipeline.
Context {ops : FloatOps}.
Variable w : World.
Variable self : DerushWorker.

Local Open Scope run_scope.

Definition update_progress (value : Z) : M unit :=
  match progress_callback w with
  | Some callback =>
      call (ProgressCallback value) (fun tr => callback tr value)
  | None => ret tt
  end.

Definition create_temp_directory : M string :=
  d <- call Mkdtemp (tempfile_mkdtemp w) ;;
  set_temp_dir d ;;;
  ret d.

Definition path_exists (p : string) : M bool :=
  call (OsPathExists p) (fun tr => Ok (os_path_exists w tr p)).

Definition remove (p : string) : M unit :=
  call (OsRemove p) (fun tr => os_remove w tr p).

(** [try: os.remove(path)  except: logger.warning(...)] *)
Definition try_remove (p : string) : M unit :=
  try_except (remove p) any_exception (fun _ => ret tt).

(** [for file in os.listdir(self.temp_dir): try: os.remove(...) ...] *)
Fixpoint remove_each (d : string) (files : list string) : M unit :=
  match files with
  | [] => ret tt
  | file :: rest => try_remove (path_join d file) ;;; remove_each d rest
  end.

Definition cleanup_temp_directory : M unit :=
  emit CallCleanupTempDirectory ;;;
  td <- get_temp_dir ;;
  match truthy_path td with
  | None => ret tt
  | Some d =>
      present <- path_exists d ;;
      if present then
        files <- call (OsListdir d) (fun tr => os_listdir w tr d) ;;
        remove_each d files ;;;
        try_except (call (OsRmdir d) (fun tr => os_rmdir w tr d))
          any_exception (fun _ => ret tt)
      else ret tt
  end.

(** [subprocess.run(cmd, capture_output=True, check=True)] inside the
    [try] of both ffmpeg methods: [True] when it returns, [False] on
    [CalledProcessError] and [FileNotFoundError]. *)
Definition run_ffmpeg (cmd : ffmpeg_cmd) : M bool :=
  try_except
    (call (SubprocessRun cmd) (fun tr => subprocess_run w tr cmd) ;;;
     ret true)
    (fun e => is_CalledProcessError e || is_FileNotFoundError e)
    (fun _ => ret false).

Definition extract_segment_ffmpeg (input_file output_file : string)
    (start_time end_time : Q) : M bool :=
  emit (CallExtractSegment input_file output_file start_time end_time) ;;;
  run_ffmpeg
    (FfmpegExtract input_file output_file start_time
       (end_time - start_time)).

(** [[f for f in segment_files if not os.path.exists(f)]] *)
Fixpoint missing_among (segment_files : list string) : M (list string) :=
  match segment_files with
  | [] => ret []
  | f :: rest =>
      present <- path_exists f ;;
      missing <- missing_among rest ;;
      ret (if present then missing else f :: missing)
  end.

Definition concat_segments_ffmpeg (segment_files : list string)
    (output_file : string) : M bool :=
  emit (CallConcatSegments segment_files output_file) ;;;
  match segment_files with
  | [] => raise nothing_to_concat
  | _ :: _ =>
      missing_files <- missing_among segment_files ;;
      match missing_files with
      | _ :: _ => raise (missing_segments missing_files)
      | [] =>
          td <- get_temp_dir ;;
          match td with
          | None =>
              raise (OtherException "TypeError"
                       "expected str, bytes or os.PathLike object, not NoneType")
          | Some d =>
              let list_file := path_join d "segments.txt" in
              let lines :=
                map (fun segment => ("file '" ++ segment ++ "'")%string)
                    segment_files in
              call (WriteFile list_file lines)
                   (fun tr => write_file w tr list_file lines) ;;;
              run_ffmpeg (FfmpegConcat list_file output_file)
          end
      end
  end.

(** [audio_data.mean(axis=1)] when the data has more than one axis. *)
Definition to_mono (data : audio_data) : list Q :=
  match data with
  | Mono samples => samples
  | MultiChannel frames => map np_mean frames
  end.

(** [run], from the creation of the workspace to the result of
    [detect_nonsilent]. *)
Definition load_and_analyse : M (string * VideoClip * list range) :=
  d <- create_temp_directory ;;
  update_progress 5 ;;;
  video <- call (OpenVideoFileClip (video_path self))
             (fun tr => video_file_clip w tr (video_path self)) ;;
  update_progress 10 ;;;
  name <- call NamedTemporaryFile (named_temporary_file w) ;;
  set_temp_audio_path name ;;;
  call (WriteAudiofile name) (fun tr => write_audiofile w tr name) ;;;
  update_progress 25 ;;;
  read <- call (SfRead name) (fun tr => sf_read w tr name) ;;
  let '(data, sample_rate) := read in
  nonsilent_ranges <-
    lift_result (detect_nonsilent self (to_mono data) sample_rate) ;;
  ret (d, video, nonsilent_ranges).

(** [for i, (start, end) in enumerate(nonsilent_ranges)], from index [i]
    on; [n] is [len(nonsilent_ranges)]. *)
Fixpoint extract_segments (d : string) (video : VideoClip) (n i : nat)
    (ranges : list range) (segment_files : list string)
  : M (list string) :=
  match ranges with
  | [] => ret segment_files
  | (range_start, range_end) :: rest =>
      let start_time := py_max 0 range_start in
      let end_time := py_min range_end (duration video) in
      let segment_file :=
        path_join d ("segment_" ++ format_04d i ++ ".mp4")%string in
      let segment_files := segment_files ++ [segment_file] in
      success <- extract_segment_ffmpeg (video_path self) segment_file
                   start_time end_time ;;
      if success then
        update_progress
          (py_int (30 + (inject_Z (Z.of_nat (i + 1)) /
                         inject_Z (Z.of_nat n)) * 50)) ;;;
        extract_segments d video n (S i) rest segment_files
      else raise extraction_failed
  end.

(** [if temp_audio_path and os.path.exists(temp_audio_path)] *)
Definition audio_to_remove : M (option string) :=
  p <- get_temp_audio_path ;;
  match truthy_path p with
  | None => ret None
  | Some p =>
      present <- path_exists p ;;
      ret (if present then Some p else None)
  end.

(** The body of the [try] of [run]. *)
Definition run_try : M string :=
  analysed <- load_and_analyse ;;
  let '(d, video, nonsilent_ranges) := analysed in
  match nonsilent_ranges with
  | [] => raise no_segment_detected
  | _ :: _ =>
      call VideoClose (video_close w) ;;;
      update_progress 30 ;;;
      segment_files <-
        extract_segments d video (length nonsilent_ranges) 0
          nonsilent_ranges [] ;;
      let output_path := output_path_of (video_path self) in
      success <- concat_segments_ffmpeg segment_files output_path ;;
      if success then
        update_progress 95 ;;;
        audio <- audio_to_remove ;;
        match audio with
        | Some p => try_remove p
        | None => ret tt
        end ;;;
        cleanup_temp_directory ;;;
        update_progress 100 ;;;
        ret output_path
      else raise concatenation_failed
  end.

(** The [try] inside the [except] block of [run]: one [try] around the
    removal of the audio file and the cleanup of the workspace. *)
Definition cleanup_after_failure : M unit :=
  try_except
    (audio <- audio_to_remove ;;
     match audio with
     | Some p => remove p
     | None => ret tt
     end ;;;
     cleanup_temp_directory)
    any_exception (fun _ => ret tt).

(** [run]: [except Exception as e: ... raise e]. *)
Definition run : M string :=
  try_except run_try any_exception
    (fun e => cleanup_after_failure ;;; raise e).
End Pipeline.

(** ** Events of interest *)

(** Calls of the segment extractor or of the concatenator, and transcoder
    processes. *)
Definition transcoding_event (e : event) : bool :=
  match e with
  | CallExtractSegment _ _ _ _ | CallConcatSegments _ _ | SubprocessRun _ =>
      true
  | _ => false
  end.

Definition concat_call (e : event) : bool :=
  match e with
  | CallConcatSegments _ _ => true
  | _ => false
  end.

(** Any step of the removal of the workspace. *)
Definition workspace_removal_event (e : event) : bool :=
  match e with
  | CallCleanupTempDirectory | OsListdir _ | OsRmdir _ => true
  | _ => false
  end.

Definition event_is_remove (p : string) (e : event) : bool :=
  match e with
  | OsRemove q => String.eqb p q
  | _ => false
  end.

(** [m] adds to the trace only events that satisfy [P]. *)
Definition only_emits {A : Type} (P : event -> bool) (m : M A) : Prop :=
  forall st, exists evs,
    trace (snd (m st)) = trace st ++ evs /\ forallb P evs = true.

(** ** Example worlds *)

(** A world in which every collaborator succeeds: the source has the given
    duration and audio, every path exists, the workspace lists [files]. *)
Definition obliging_world (dur : Q) (data : audio_data) (sample_rate : Z)
    (files : list string) : World :=
  {| progress_callback := Some (fun _ _ => Ok tt);
     tempfile_mkdtemp := fun _ => Ok "/tmp/derusher_k3x";
     video_file_clip := fun _ _ => Ok {| duration := dur |};
     named_temporary_file := fun _ => Ok "/tmp/tmpq1.wav";
     write_audiofile := fun _ _ => Ok tt;
     sf_read := fun _ _ => Ok (data, sample_rate);
     video_close := fun _ => Ok tt;
     subprocess_run := fun _ _ => Ok tt;
     os_path_exists := fun _ _ => true;
     os_remove := fun _ _ => Ok tt;
     os_listdir := fun _ _ => Ok files;
     os_rmdir := fun _ _ => Ok tt;
     write_file := fun _ _ _ => Ok tt |}.

(** The same world, except that the transcoder exits with an error when
    asked to write [bad_segment], and that [os.remove] of a path accepted
    by [locked] raises. *)
Definition failing_world (dur : Q) (data : audio_data) (sample_rate : Z)
    (files : list string) (bad_segment : string) (locked : string -> bool)
  : World :=
  let base := obliging_world dur data sample_rate files in
  {| progress_callback := progress_callback base;
     tempfile_mkdtemp := tempfile_mkdtemp base;
     video_file_clip := video_file_clip base;
     named_temporary_file := named_temporary_file base;
     write_audiofile := write_audiofile base;
     sf_read := sf_read base;
     video_close := video_close base;
     subprocess_run := fun _ cmd =>
       match cmd with
       | FfmpegExtract _ output _ _ =>
           if String.eqb output bad_segment
           then Raise (CalledProcessError
                         "Command returned non-zero exit status 1.")
           else Ok tt
       | FfmpegConcat _ _ => Ok tt
       end;
     os_path_exists := os_path_exists base;
     os_remove := fun _ p =>
       if locked p then Raise (OSError "[Errno 13] Permission denied")
       else Ok tt;
     os_listdir := os_listdir base;
     os_rmdir := os_rmdir base;
     write_file := write_file base |}.

(** Ten seconds of audio at 1000 Hz: five times half a second of sound
    followed by a second and a half of silence. *)
Definition five_bursts_audio : list Q :=
  concat (repeat (level (1 # 2) 500 ++ level 0 1500) 5).

Definition three_segment_files : list string :=
  ["segment_0000.mp4"; "segment_0001.mp4"; "segment_0002.mp4"].

Definition no_transcoding (e : event) : bool := negb (transcoding_event e).

(** The worker and the worlds of the examples: a source at
    [/videos/talk.mov] whose audio is [five_bursts_audio]; the audio file
    is written to [/tmp/tmpq1.wav], the workspace is [/tmp/derusher_k3x]. *)
Definition talk_worker : DerushWorker := example_worker "/videos/talk.mov".

Definition talk_world : World :=
  obliging_world 10 (Mono five_bursts_audio) 1000 three_segment_files.

(** The extraction of the third range fails. *)
Definition third_extraction_fails : World :=
  failing_world 10 (Mono five_bursts_audio) 1000 three_segment_files
    "/tmp/derusher_k3x/segment_0002.mp4" (fun _ => false).

(** The extraction of the third range fails and the audio file cannot be
    removed. *)
Definition third_extraction_fails_audio_locked : World :=
  failing_world 10 (Mono five_bursts_audio) 1000 three_segment_files
    "/tmp/derusher_k3x/segment_0002.mp4" (String.eqb "/tmp/tmpq1.wav").

(** Every step succeeds, but the audio file cannot be removed. *)
Definition audio_locked : World :=
  failing_world 10 (Mono five_bursts_audio) 1000 three_segment_files
    "" (String.eqb "/tmp/tmpq1.wav").

(** A source whose audio is half a second of silence. *)
Definition silent_world : World :=
  obliging_world (1 # 2) (Mono (level 0 4000)) 8000 [].

(** ** Properties of ranges *)

(** A range that does not end before it starts. *)
Definition well_formed (r : range) : Prop := fst r <= snd r.

(** [o] covers [r]: it starts no later and ends no earlier. *)
Definition covers (o r : range) : Prop := fst o <= fst r /\ snd r <= snd o.

(** Where the two ends of a merged range come from: its start is the start
    of a range of [all] that ends no later than it, its end is the end of
    a range of [all]. *)
Definition from_ranges (all : list range) (o : range) : Prop :=
  exists r1 r2, In r1 all /\ In r2 all /\
    fst o = fst r1 /\ snd o = snd r2 /\ snd r1 <= snd o.

(** What the classifier has checked of a range it keeps: it starts at 0 or
    later and lasts at least [min_silence_len]. *)
Definition kept_range (self : DerushWorker) (r : range) : Prop :=
  0 <= fst r /\ min_silence_len self <= snd r - fst r.

(** ** Traces *)

(** The state [st] after the events [evs]. *)
Definition with_trace (st : run_state) (evs : list event) : run_state :=
  {| temp_dir := temp_dir st;
     temp_audio_path := temp_audio_path st;
     trace := trace st ++ evs |}.

(** An existence test, a removal or the call of [cleanup_temp_directory]:
    no manifest written and no process started. *)
Definition writes_nothing (e : event) : bool :=
  match e with
  | WriteFile _ _ | SubprocessRun _ => false
  | _ => true
  end.

(** What [subprocess.run] answered, as the two ffmpeg methods see it:
    [True], [False] (the process failed or ffmpeg is not there) or the
    exception they let through. *)
Definition ffmpeg_outcome (answer : result unit) : result bool :=
  match answer with
  | Ok _ => Ok true
  | Raise (CalledProcessError _) | Raise (FileNotFoundError _) => Ok false
  | Raise e => Raise e
  end.

(** The workspace of the examples with one segment that cannot be
    removed. *)
Definition stubborn_segment : World :=
  failing_world 10 (Mono five_bursts_audio) 1000 three_segment_files
    "" (String.eqb "/tmp/derusher_k3x/segment_0001.mp4").

(** A world whose workspace cannot be listed. *)
Definition unlistable_workspace : World :=
  {| progress_callback := None;
     tempfile_mkdtemp := tempfile_mkdtemp talk_world;
     video_file_clip := video_file_clip talk_world;
     named_temporary_file := named_temporary_file talk_world;
     write_audiofile := write_audiofile talk_world;
     sf_read := sf_read talk_world;
     video_close := video_close talk_world;
     subprocess_run := subprocess_run talk_world;
     os_path_exists := os_path_exists talk_world;
     os_remove := os_remove talk_world;
     os_listdir := fun _ _ => Raise (OSError "[Errno 13] Permission denied");
     os_rmdir := os_rmdir talk_world;
     write_file := write_file talk_world |}.

(** A world in which the second segment file is not there. *)
Definition second_segment_missing : World :=
  {| progress_callback := None;
     tempfile_mkdtemp := tempfile_mkdtemp talk_world;
     video_file_clip := video_file_clip talk_world;
     named_temporary_file := named_temporary_file talk_world;
     write_audiofile := write_audiofile talk_world;
     sf_read := sf_read talk_world;
     video_close := video_close talk_world;
     subprocess_run := subprocess_run talk_world;
     os_path_exists := fun _ p =>
       negb (String.eqb p "/tmp/derusher_k3x/segment_0001.mp4");
     os_remove := os_remove talk_world;
     os_listdir := os_listdir talk_world;
     os_rmdir := os_rmdir talk_world;
     write_file := write_file talk_world |}.

(** The state of a run once its workspace is created. *)
Definition workspace_state : run_state :=
  {| temp_dir := Some "/tmp/derusher_k3x";
     temp_audio_path := Some "/tmp/tmpq1.wav";
     trace := [Mkdtemp] |}.

(** The calls of the extractor whose arguments are clamped for a video of
    duration [dur]: [start_time] is 0 or more, [end_time] is [dur] or
    less.  Nothing is asked of the other events, the command line
    included. *)
Definition call_clamped (dur : Q) (e : event) : bool :=
  match e with
  | CallExtractSegment _ _ start_time end_time =>
      Qle_bool 0 start_time && Qle_bool end_time dur
  | _ => true
  end.

(** [os.path.join(temp_dir, f'segment_{i:04d}.mp4')] *)
Definition segment_file_name (d : string) (i : nat) : string :=
  path_join d ("segment_" ++ format_04d i ++ ".mp4")%string.

(** The calls of the concatenator a run of [self] may make: with at least
    one segment file and with the output path derived from the input. *)
Definition concat_call_expected (self : DerushWorker) (e : event) : bool :=
  match e with
  | CallConcatSegments segment_files output =>
      match segment_files with
      | [] => false
      | _ :: _ => String.eqb output (output_path_of (video_path self))
      end
  | _ => true
  end.

(** ** Progress *)

(** The values handed to the progress callback, in order. *)
Fixpoint progress_values (evs : list event) : list Z :=
  match evs with
  | [] => []
  | ProgressCallback v :: t => v :: progress_values t
  | _ :: t => progress_values t
  end.

Definition not_progress (e : event) : bool :=
  match e with
  | ProgressCallback _ => false
  | _ => true
  end.

(** [l] never decreases, starts at [lo] or above and ends at [hi] or
    below ([lo <= hi] when [l] is empty). *)
Fixpoint ascending_between (lo hi : Z) (l : list Z) : Prop :=
  match l with
  | [] => (lo <= hi)%Z
  | v :: t => (lo <= v)%Z /\ ascending_between v hi t
  end.

(** The progress values of [m] never decrease and stay between [lo] and
    [hi]. *)
Definition progress_within {A : Type} (lo hi : Z) (m : M A) : Prop :=
  forall st, exists evs,
    trace (snd (m st)) = trace st ++ evs /\
    ascending_between lo hi (progress_values evs).

(** [int(30 + ((i + 1) / n) * 50)], the progress after segment [i] of [n]. *)
Definition loop_progress (n i : nat) : Z :=
  py_int (30 + (inject_Z (Z.of_nat (i + 1)) / inject_Z (Z.of_nat n)) * 50).

(** ** The entry points: [check_ffmpeg_installed] and [process_video] *)

(** [check_ffmpeg_installed], given what
    [subprocess.run(['ffmpeg', '-version'], ..., check=False)] does: the
    return code of the process, or an exception. *)
Definition check_ffmpeg_installed (probe : result Z) : result bool :=
  match probe with
  | Ok returncode => Ok (returncode =? 0)%Z
  | Raise (FileNotFoundError _) => Ok false
  | Raise e => Raise e
  end.

Definition ffmpeg_not_installed : exn :=
  RuntimeError
    "FFmpeg n'est pas installé ou n'est pas dans le PATH du système.".

(** A new worker in a world with the history [history]. *)
Definition fresh_state (history : list event) : run_state :=
  {| temp_dir := None; temp_audio_path := None; trace := history |}.

(** [process_video(video_path, min_silence_len, silence_thresh, max_thresh,
    margin_ms, progress_callback)]; the callback is the one of the world. *)
Definition process_video {ops : FloatOps} (probe : result Z) (w : World)
    (history : list event) (path : string)
    (min_silence_len_ms silence_thresh_db max_thresh_db margin_ms : Q)
  : result string * run_state :=
  match check_ffmpeg_installed probe with
  | Raise e => (Raise e, fresh_state history)
  | Ok false => (Raise ffmpeg_not_installed, fresh_state history)
  | Ok true =>
      run w (new_worker path min_silence_len_ms silence_thresh_db
               max_thresh_db margin_ms)
          (fresh_state history)
  end.

(** ** The command line ([main.py]) *)

(** The world [w] with [callback] as progress callback. *)
Definition with_callback (w : World)
    (callback : list event -> Z -> result unit) : World :=
  {| progress_callback := Some callback;
     tempfile_mkdtemp := tempfile_mkdtemp w;
     video_file_clip := video_file_clip w;
     named_temporary_file := named_temporary_file w;
     write_audiofile := write_audiofile w;
     sf_read := sf_read w;
     video_close := video_close w;
     subprocess_run := subprocess_run w;
     os_path_exists := os_path_exists w;
     os_remove := os_remove w;
     os_listdir := os_listdir w;
     os_rmdir := os_rmdir w;
     write_file := write_file w |}.

(** [print_progress] prints and returns. *)
Definition print_progress (history : list event) (progress : Z)
  : result unit := Ok tt.

(** [derush_existing_video(video_path)]: [None] or the path of the
    derushed video, with the trace of what it did.  [probe] is the ffmpeg
    check of the function itself, [probe'] the one of [process_video].
    What the function prints is left out. *)
Definition derush_existing_video {ops : FloatOps} (probe probe' : result Z)
    (w : World) (path : string) : result (option string) * list event :=
  match check_ffmpeg_installed probe with
  | Raise e => (Raise e, [])
  | Ok false => (Ok None, [])
  | Ok true =>
      if os_path_exists w [] path then
        let '(r, st) :=
          process_video probe' (with_callback w print_progress)
            [OsPathExists path] path 1000 (-50) (-10) 200 in
        match r with
        | Ok derushed_path => (Ok (Some derushed_path), trace st)
        | Raise _ => (Ok None, trace st)
        end
      else (Ok None, [OsPathExists path])
  end.

(** [s.endswith(suffix)] *)
Definition endswith (s suffix : string) : bool :=
  (String.length suffix <=? String.length s)%nat &&
  String.eqb (str_drop (String.length s - String.length suffix) s) suffix.

(** [list_temp_videos], given what [os.listdir("temp")] does and, when the
    directory is not there, what [os.makedirs("temp", exist_ok=True)]
    does. *)
Definition list_temp_videos (listing : result (list string))
    (makedirs : result unit) : result (list string) :=
  match listing with
  | Ok names =>
      Ok (filter (fun f => endswith f ".mp4" &&
                           negb (endswith f "_derushed.mp4")) names)
  | Raise (FileNotFoundError _) =>
      match makedirs with
      | Ok _ => Ok []
      | Raise e => Raise e
      end
  | Raise e => Raise e
  end.

(** Four seconds of audio at 1000 Hz: three seconds of sound at a level of
    0.05, then silence. *)
Definition soft_speech_audio : list Q := level (1 # 20) 3000 ++ level 0 1000.

Definition soft_speech_world : World :=
  obliging_world 4 (Mono soft_speech_audio) 1000 ["segment_0000.mp4"].

(** ** The choice of the streams ([download_loom_video]) *)

(** A variant of the master playlist: its URI and
    [stream_info.bandwidth]. *)
Record Playlist : Type := { pl_uri : string; pl_bandwidth : Z }.

(** A rendition of the master playlist: its type, its [default] attribute
    (absent, or the text of the attribute) and its URI. *)
Record Media : Type := {
  m_type : string;
  m_default : option string;
  m_uri : string
}.

(** Truth value of an attribute: absent and the empty text are false. *)
Definition truthy (a : option string) : bool :=
  match a with
  | Some (String _ _) => true
  | _ => false
  end.

Definition no_video_track : exn :=
  RuntimeError "Aucune piste vidéo trouvée dans le master playlist.".
Definition no_audio_track : exn :=
  RuntimeError "Aucune piste audio trouvée dans le master playlist.".

(** [next(pl.uri for pl in playlists if pl.stream_info.bandwidth ==
    variant_bandwidth)]; [None] stands for [StopIteration]. *)
Definition uri_with_bandwidth (playlists : list Playlist)
    (variant_bandwidth : Z) : option string :=
  option_map pl_uri
    (find (fun pl => (pl_bandwidth pl =? variant_bandwidth)%Z) playlists).

(** One iteration of the fallback loop on [(highest_bandwidth, vid_uri)];
    [vid_uri] is unbound ([None]) until the first assignment. *)
Definition highest_step (st : Z * option string) (pl : Playlist)
  : Z * option string :=
  let '(highest_bandwidth, vid_uri) := st in
  if (highest_bandwidth <? pl_bandwidth pl)%Z
  then (pl_bandwidth pl, Some (pl_uri pl))
  else (highest_bandwidth, vid_uri).

(** The choice of the video variant: the first one with the requested
    bandwidth, else the one with the highest bandwidth. *)
Definition select_video_uri (playlists : list Playlist)
    (variant_bandwidth : Z) : result string :=
  match uri_with_bandwidth playlists variant_bandwidth with
  | Some vid_uri => Ok vid_uri
  | None =>
      let '(highest_bandwidth, vid_uri) :=
        fold_left highest_step playlists (0%Z, None) in
      if (highest_bandwidth =? 0)%Z then Raise no_video_track
      else
        match vid_uri with
        | Some uri => Ok uri
        | None =>
            Raise (OtherException "UnboundLocalError"
                     "local variable 'vid_uri' referenced before assignment")
        end
  end.

(** The choice of the audio rendition: the first [AUDIO] one whose
    [default] is true, else the first [AUDIO] one. *)
Definition select_audio_uri (media : list Media) : result string :=
  match find (fun m => String.eqb (m_type m) "AUDIO" && truthy (m_default m))
             media with
  | Some m => Ok (m_uri m)
  | None =>
      match find (fun m => String.eqb (m_type m) "AUDIO") media with
      | Some m => Ok (m_uri m)
      | None => Raise no_audio_track
      end
  end.

(** ** The housekeeping of the output directory ([cleanup_old_downloads]) *)

(** An entry of the directory as the function sees it: its name, what
    [os.path.isfile] answers, and what [os.stat(...).st_mtime],
    [os.path.getsize] and [os.remove] do on it. *)
Record DirEntry : Type := {
  entry_name : string;
  entry_is_file : bool;
  entry_mtime : result Q;
  entry_size : result Z;
  entry_removal : result unit
}.

(** The counters of the function and the files it removed. *)
Record CleanupReport : Type := {
  removed : list string;
  deleted_count : Z;
  total_size : Z
}.

Definition empty_report : CleanupReport :=
  {| removed := []; deleted_count := 0; total_size := 0 |}.

(** One iteration of [for filename in os.listdir(output_dir)]. *)
Definition cleanup_step (now max_age_seconds : Q) (rep : CleanupReport)
    (e : DirEntry) : CleanupReport * result unit :=
  if entry_is_file e then
    match entry_mtime e with
    | Raise x => (rep, Raise x)
    | Ok mtime =>
        let file_age := now - mtime in
        if Qlt_bool max_age_seconds file_age then
          match entry_size e with
          | Raise x => (rep, Raise x)
          | Ok file_size =>
              let total := (total_size rep + file_size)%Z in
              match entry_removal e with
              | Ok _ =>
                  ({| removed := removed rep ++ [entry_name e];
                      deleted_count := (deleted_count rep + 1)%Z;
                      total_size := total |}, Ok tt)
              | Raise _ =>
                  ({| removed := removed rep;
                      deleted_count := deleted_count rep;
                      total_size := total |}, Ok tt)
              end
          end
        else (rep, Ok tt)
    end
  else (rep, Ok tt).

Fixpoint cleanup_loop (now max_age_seconds : Q) (entries : list DirEntry)
    (rep : CleanupReport) : CleanupReport * result unit :=
  match entries with
  | [] => (rep, Ok tt)
  | e :: rest =>
      match cleanup_step now max_age_seconds rep e with
      | (rep', Ok _) => cleanup_loop now max_age_seconds rest rep'
      | (rep', Raise x) => (rep', Raise x)
      end
  end.

(** [cleanup_old_downloads(output_dir, max_age_hours)], given whether the
    directory exists, what [os.listdir] does and [time.time()]. *)
Definition cleanup_old_downloads (dir_exists : bool)
    (listing : result (list DirEntry)) (now max_age_hours : Q)
  : CleanupReport * result unit :=
  if dir_exists then
    match listing with
    | Raise x => (empty_report, Raise x)
    | Ok entries => cleanup_loop now (max_age_hours * 3600) entries
                      empty_report
    end
  else (empty_report, Ok tt).

(** A regular file strictly older than the limit. *)
Definition expired (now max_age_seconds : Q) (e : DirEntry) : bool :=
  entry_is_file e &&
  match entry_mtime e with
  | Ok mtime => Qlt_bool max_age_seconds (now - mtime)
  | Raise _ => false
  end.

Definition removable (e : DirEntry) : bool :=
  match entry_removal e with Ok _ => true | Raise _ => false end.

Definition size_of (e : DirEntry) : Z :=
  match entry_size e with Ok s => s | Raise _ => 0%Z end.

(** Neither [os.stat] on a regular file nor [os.path.getsize] on an
    expired file raises. *)
Definition readable (now max_age_seconds : Q) (e : DirEntry) : Prop :=
  (entry_is_file e = true -> exists m, entry_mtime e = Ok m) /\
  (expired now max_age_seconds e = true -> exists s, entry_size e = Ok s).

(** ** The removal of sent files ([server.py]) *)

Section SentFiles.
Variable w : World.
Local Open Scope run_scope.

(** [if os.path.exists(file_path): os.remove(file_path)] *)
Definition remove_if_exists (file_path : string) : M unit :=
  present <- path_exists w file_path ;;
  if present then remove w file_path else ret tt.

Fixpoint remove_existing (file_paths : list string) : M unit :=
  match file_paths with
  | [] => ret tt
  | file_path :: rest => remove_if_exists file_path ;;; remove_existing rest
  end.

(** [cleanup_file(file_path)]; the wait of 60 seconds is left out. *)
Definition cleanup_file (file_path : string) : M unit :=
  try_except (remove_if_exists file_path) any_exception (fun _ => ret tt).

(** [cleanup_files(file_paths)]: one [try] around the whole loop. *)
Definition cleanup_files (file_paths : list string) : M unit :=
  try_except (remove_existing file_paths) any_exception (fun _ => ret tt).
End SentFiles.

(** The events that test or remove one of [files]. *)
Definition touches_only (files : list string) (e : event) : Prop :=
  exists f, In f files /\ (e = OsPathExists f \/ e = OsRemove f).

(** An output directory at time 100000 s: a file last written at time 0
    that cannot be removed, one of the same age that can, a file written an
    hour ago, and a directory. *)
Definition example_outputs : list DirEntry :=
  [ {| entry_name := "loom_locked.mp4"; entry_is_file := true;
       entry_mtime := Ok 0; entry_size := Ok 2097152%Z;
       entry_removal := Raise (OSError "[Errno 13] Permission denied") |};
    {| entry_name := "loom_old.mp4"; entry_is_file := true;
       entry_mtime := Ok 0; entry_size := Ok 1048576%Z;
       entry_removal := Ok tt |};
    {| entry_name := "loom_new.mp4"; entry_is_file := true;
       entry_mtime := Ok 96400; entry_size := Ok 1048576%Z;
       entry_removal := Ok tt |};
    {| entry_name := "cache"; entry_is_file := false;
       entry_mtime := Ok 0; entry_size := Ok 4096%Z;
       entry_removal := Raise (OSError "[Errno 21] Is a directory") |} ].

(** A world in which [upload_1.mp4] cannot be removed. *)
Definition upload_locked : World :=
  failing_world 10 (Mono five_bursts_audio) 1000 three_segment_files
    "" (String.eqb "outputs/upload_1.mp4").

(** [m] only adds to the trace. *)
Definition extends_trace {A : Type} (m : M A) : Prop :=
  only_emits (fun _ => true) m.

(** Whenever [m] returns, it has emitted [e]. *)
Definition returns_after {A : Type} (e : event) (m : M A) : Prop :=
  forall st, exists evs,
    trace (snd (m st)) = trace st ++ evs /\
    forall a, fst (m st) = Ok a -> In e evs.

(** The start of a range whose first window is [k]:
    [max(0, k * 0.1 - self.margin)]. *)
Definition range_start (self : DerushWorker) (k : nat) : Q :=
  py_max 0 (window_time k - margin self).
(** * Theorems *)

Lemma Qlt_bool_iff (x y : Q) : Qlt_bool x y = true <-> x < y.
Proof.
  unfold Qlt_bool. rewrite negb_true_iff. split.
  - intros H. apply Qnot_le_lt. intros Hle.
    apply Qle_bool_iff in Hle. congruence.
  - intros H. destruct (Qle_bool y x) eqn:E; [|reflexivity].
    apply Qle_bool_iff in E. exfalso. apply (Qlt_not_le _ _ H E).
Qed.

Lemma Qle_bool_false (x y : Q) : Qle_bool x y = false <-> y < x.
Proof.
  rewrite <- Qlt_bool_iff. unfold Qlt_bool.
  rewrite negb_true_iff. tauto.
Qed.

Lemma py_max_ge_l (a b : Q) : a <= py_max a b.
Proof.
  unfold py_max. destruct (Qlt_bool a b) eqn:E.
  - apply Qlt_bool_iff in E. lra.
  - lra.
Qed.

Lemma py_max_ge_r (a b : Q) : b <= py_max a b.
Proof.
  unfold py_max. destruct (Qlt_bool a b) eqn:E.
  - lra.
  - unfold Qlt_bool in E. rewrite negb_false_iff in E.
    apply Qle_bool_iff in E. exact E.
Qed.

Lemma sweep_spec (rest merged : list range) (cs ce : Q) :
  (let '(m, s, e) := fold_left merge_step rest (merged, cs, ce) in
   m ++ [(s, e)]) = merged ++ sweep cs ce rest.
Proof.
  revert merged cs ce.
  induction rest as [|[s e] t IH]; intros merged cs ce; simpl.
  - reflexivity.
  - destruct (Qle_bool s (ce + min_segment_gap)).
    + apply IH.
    + rewrite IH, <- app_assoc. reflexivity.
Qed.

Lemma merge_sorted_sweep (r : range) (l : list range) :
  merge_overlapping_ranges (r :: l) =
  match sorted_by_start (r :: l) with
  | [] => []
  | (cs, ce) :: rest => sweep cs ce rest
  end.
Proof.
  unfold merge_overlapping_ranges.
  destruct (sorted_by_start (r :: l)) as [|[cs ce] rest]; [reflexivity|].
  apply (sweep_spec rest [] cs ce).
Qed.

(** ** The stable sort *)

Lemma insert_by_start_In (r x : range) (l : list range) :
  In x (insert_by_start r l) <-> x = r \/ In x l.
Proof.
  induction l as [|h t IH]; simpl.
  - intuition congruence.
  - destruct (Qle_bool (fst r) (fst h)); simpl.
    + intuition congruence.
    + rewrite IH. intuition congruence.
Qed.

Lemma insert_by_start_sorted (r : range) (l : list range) :
  StronglySorted start_le l -> StronglySorted start_le (insert_by_start r l).
Proof.
  induction 1 as [|h t Hs IH Hall]; simpl.
  - constructor; [constructor | constructor].
  - destruct (Qle_bool (fst r) (fst h)) eqn:E.
    + apply Qle_bool_iff in E.
      constructor; [constructor; assumption|].
      constructor; [exact E|].
      rewrite Forall_forall in Hall |- *. intros x Hx.
      specialize (Hall x Hx). unfold start_le in *. lra.
    + apply Qle_bool_false in E.
      constructor; [exact IH|].
      rewrite Forall_forall in Hall |- *. intros x Hx.
      apply insert_by_start_In in Hx. destruct Hx as [->|Hx].
      * unfold start_le. lra.
      * apply Hall, Hx.
Qed.

Lemma sorted_by_start_sorted (l : list range) :
  StronglySorted start_le (sorted_by_start l).
Proof.
  induction l as [|r l IH]; simpl.
  - constructor.
  - apply insert_by_start_sorted, IH.
Qed.

(** A list already sorted by start is left as it is. *)
Lemma sorted_by_start_id (l : list range) :
  StronglySorted start_le l -> sorted_by_start l = l.
Proof.
  induction 1 as [|h t Hs IH Hall]; simpl; [reflexivity|].
  rewrite IH. destruct t as [|h' t']; simpl; [reflexivity|].
  inversion Hall as [|? ? Hh _]; subst.
  apply Qle_bool_iff in Hh. rewrite Hh. reflexivity.
Qed.

(** ** The sweep *)

Lemma sweep_head (rest : list range) (cs ce : Q) :
  exists ce' t, sweep cs ce rest = (cs, ce') :: t.
Proof.
  revert cs ce. induction rest as [|[s e] t IH]; intros cs ce; simpl.
  - eauto.
  - destruct (Qle_bool s (ce + min_segment_gap)); eauto.
Qed.

Lemma sweep_starts (rest : list range) (cs ce : Q) (x : range) :
  In x (sweep cs ce rest) ->
  fst x = cs \/ exists y, In y rest /\ fst x = fst y.
Proof.
  revert cs ce. induction rest as [|[s e] t IH]; intros cs ce; simpl.
  - intros [<-|[]]. left. reflexivity.
  - destruct (Qle_bool s (ce + min_segment_gap)).
    + intros Hx. destruct (IH _ _ Hx) as [H|[y [Hy H]]]; eauto.
    + intros [<-|Hx]; [left; reflexivity|].
      destruct (IH _ _ Hx) as [H|[y [Hy H]]]; right.
      * exists (s, e). split; [left; reflexivity | exact H].
      * exists y. split; [right; exact Hy | exact H].
Qed.

Lemma sweep_gaps (rest : list range) (cs ce : Q) :
  Sorted gap_before (sweep cs ce rest).
Proof.
  revert cs ce. induction rest as [|[s e] t IH]; intros cs ce; simpl.
  - constructor; constructor.
  - destruct (Qle_bool s (ce + min_segment_gap)) eqn:E.
    + apply IH.
    + apply Qle_bool_false in E. constructor; [apply IH|].
      destruct (sweep_head t s e) as [ce' [t' ->]].
      constructor. exact E.
Qed.

Lemma sweep_sorted (rest : list range) (cs ce : Q) :
  StronglySorted start_le ((cs, ce) :: rest) ->
  StronglySorted start_le (sweep cs ce rest).
Proof.
  revert cs ce. induction rest as [|[s e] t IH]; intros cs ce Hs; simpl.
  - constructor; constructor.
  - inversion Hs as [|? ? Hrest Hall]; subst.
    inversion Hrest as [|? ? Ht Hallt]; subst.
    inversion Hall as [|? ? Hcs Hall']; subst.
    destruct (Qle_bool s (ce + min_segment_gap)).
    + apply IH. constructor; assumption.
    + constructor; [apply IH; exact Hrest|].
      rewrite Forall_forall. intros x Hx.
      destruct (sweep_starts _ _ _ _ Hx) as [H|[y [Hy H]]];
        unfold start_le in *; simpl in *; rewrite H.
      * exact Hcs.
      * rewrite Forall_forall in Hall'. apply (Hall' y Hy).
Qed.

(** A sweep over ranges that already keep their gaps changes nothing. *)
Lemma sweep_id (rest : list range) (cs ce : Q) :
  Sorted gap_before ((cs, ce) :: rest) ->
  sweep cs ce rest = (cs, ce) :: rest.
Proof.
  revert cs ce. induction rest as [|[s e] t IH]; intros cs ce Hs; simpl.
  - reflexivity.
  - inversion Hs as [|? ? Hrest Hhd]; subst.
    inversion Hhd as [|? ? Hgap]; subst.
    unfold gap_before in Hgap. simpl in Hgap.
    apply Qle_bool_false in Hgap. rewrite Hgap.
    rewrite IH; [reflexivity | exact Hrest].
Qed.

(** Consecutive gaps and ascending starts give the gap between any
    earlier and any later range. *)
Lemma gaps_pairwise (l : list range) :
  Sorted gap_before l -> StronglySorted start_le l ->
  StronglySorted gap_before l.
Proof.
  induction l as [|a l IH]; intros Hg Hs; [constructor|].
  inversion Hg as [|? ? Hg' Hhd]; subst.
  inversion Hs as [|? ? Hs' Hall]; subst.
  constructor; [apply IH; assumption|].
  destruct l as [|b l']; [constructor|].
  inversion Hhd as [|? ? Hab]; subst.
  inversion Hs' as [|? ? _ Hallb]; subst.
  constructor; [exact Hab|].
  rewrite Forall_forall in Hallb |- *. intros x Hx.
  specialize (Hallb x Hx). unfold gap_before, start_le in *. lra.
Qed.

Lemma merge_sorted (ranges : list range) :
  StronglySorted start_le (merge_overlapping_ranges ranges).
Proof.
  destruct ranges as [|r l]; [constructor|].
  rewrite merge_sorted_sweep.
  pose proof (sorted_by_start_sorted (r :: l)) as Hs.
  destruct (sorted_by_start (r :: l)) as [|[cs ce] rest]; [constructor|].
  apply sweep_sorted, Hs.
Qed.

Lemma merge_gaps (ranges : list range) :
  Sorted gap_before (merge_overlapping_ranges ranges).
Proof.
  destruct ranges as [|r l]; [constructor|].
  rewrite merge_sorted_sweep.
  destruct (sorted_by_start (r :: l)) as [|[cs ce] rest]; [constructor|].
  apply sweep_gaps.
Qed.

Lemma StronglySorted_nth {A : Type} (R : A -> A -> Prop) (l : list A) :
  StronglySorted R l ->
  forall i j a b, (i < j)%nat ->
    nth_error l i = Some a -> nth_error l j = Some b -> R a b.
Proof.
  induction 1 as [|h t Hs IH Hall]; intros i j a b Hij Hi Hj.
  - destruct i; discriminate.
  - destruct j as [|j]; [lia|]. simpl in Hj.
    destruct i as [|i]; simpl in Hi.
    + injection Hi as <-. rewrite Forall_forall in Hall.
      apply Hall. eapply nth_error_In, Hj.
    + apply (IH i j); [lia | assumption | assumption].
Qed.

(** C3. The output of [merge_overlapping_ranges] is sorted ascending by
    start time, any two consecutive output ranges satisfy
    [next.start > current.end + min_segment_gap] with a gap of 0.2 s, and
    so does any earlier range with any later one: the output ranges are
    mutually disjoint. *)
Theorem merge_output_sorted_disjoint (ranges : list range) :
  let out := merge_overlapping_ranges ranges in
  min_segment_gap == 2 # 10 /\
  (forall i j a b, (i < j)%nat ->
     nth_error out i = Some a -> nth_error out j = Some b ->
     fst a <= fst b) /\
  (forall i a b,
     nth_error out i = Some a -> nth_error out (S i) = Some b ->
     fst b > snd a + min_segment_gap) /\
  (forall i j a b, (i < j)%nat ->
     nth_error out i = Some a -> nth_error out j = Some b ->
     snd a < fst b).
Proof.
  intros out.
  pose proof (merge_sorted ranges) as Hs.
  pose proof (gaps_pairwise _ (merge_gaps ranges) Hs) as Hg.
  fold out in Hs, Hg.
  split; [reflexivity|]. split; [|split].
  - intros i j a b Hij Hi Hj.
    apply (StronglySorted_nth _ _ Hs i j a b Hij Hi Hj).
  - intros i a b Hi Hj.
    apply (StronglySorted_nth _ _ Hg i (S i) a b); [lia | assumption..].
  - intros i j a b Hij Hi Hj.
    pose proof (StronglySorted_nth _ _ Hg i j a b Hij Hi Hj) as H.
    unfold gap_before, min_segment_gap in H. lra.
Qed.

(** C4. [merge_overlapping_ranges] is idempotent: merging its own output
    gives back exactly the same sequence of ranges. *)
Theorem merge_idempotent (ranges : list range) :
  merge_overlapping_ranges (merge_overlapping_ranges ranges) =
  merge_overlapping_ranges ranges.
Proof.
  pose proof (merge_sorted ranges) as Hs.
  pose proof (merge_gaps ranges) as Hg.
  destruct (merge_overlapping_ranges ranges) as [|[cs ce] rest];
    [reflexivity|].
  rewrite merge_sorted_sweep, (sorted_by_start_id _ Hs).
  apply sweep_id, Hg.
Qed.

(** ** Two ranges *)

(** C5, as stated, fails: for A1 = (10, 11) and A2 = (0, 1) the difference
    [A2.start - A1.end] is -11, not above 0.2, and the merger keeps the two
    ranges apart. *)
Lemma merge_two_unordered_counterexample :
  let a1 : range := (10, 11) in
  let a2 : range := (0, 1) in
  fst a2 - snd a1 <= 2 # 10 /\
  merge_overlapping_ranges [a1; a2] = [a2; a1] /\
  ~ single_cover a1 a2 (merge_overlapping_ranges [a1; a2]).
Proof.
  simpl. split; [|split].
  - unfold Qle; simpl; lia.
  - reflexivity.
  - intros [r [H _]]. vm_compute in H. discriminate H.
Qed.

(** C5 (amended). For two input ranges A1 and A2 where A1 starts no later
    than A2 and [A2.start <= A1.end + min_segment_gap], the test of the
    merger itself with the sum it computes, the output of the merger is
    the single range [(A1.start, max(A1.end, A2.end))], which covers
    both. *)
Theorem merge_two_close (a1 a2 : range) :
  fst a1 <= fst a2 ->
  fst a2 <= snd a1 + min_segment_gap ->
  merge_overlapping_ranges [a1; a2] = [(fst a1, py_max (snd a1) (snd a2))] /\
  single_cover a1 a2 (merge_overlapping_ranges [a1; a2]).
Proof.
  intros Hord Hgap.
  assert (E : merge_overlapping_ranges [a1; a2] =
              [(fst a1, py_max (snd a1) (snd a2))]).
  { destruct a1 as [s1 e1], a2 as [s2 e2]. simpl in *.
    unfold merge_overlapping_ranges, sorted_by_start. simpl.
    apply Qle_bool_iff in Hord. rewrite Hord. simpl.
    apply Qle_bool_iff in Hgap. rewrite Hgap. reflexivity. }
  split; [exact E|]. rewrite E.
  exists (fst a1, py_max (snd a1) (snd a2)). simpl.
  repeat split.
  - lra.
  - exact Hord.
  - apply py_max_ge_l.
  - apply py_max_ge_r.
Qed.

Lemma merge_two_close_witness :
  let a1 : range := (1, 13 # 10) in
  let a2 : range := (135 # 100, 16 # 10) in
  merge_overlapping_ranges [a1; a2] = [(1, 16 # 10)] /\
  single_cover a1 a2 (merge_overlapping_ranges [a1; a2]).
Proof.
  simpl.
  apply (merge_two_close (1, 13 # 10) (135 # 100, 16 # 10));
    unfold Qle, min_segment_gap; simpl; lia.
Defined.

(** The order in which the two ranges are listed does not matter when A1
    starts strictly first. *)
Lemma merge_two_close_swapped (a1 a2 : range) :
  fst a1 < fst a2 ->
  fst a2 <= snd a1 + min_segment_gap ->
  merge_overlapping_ranges [a2; a1] = [(fst a1, py_max (snd a1) (snd a2))].
Proof.
  intros Hord Hgap.
  destruct a1 as [s1 e1], a2 as [s2 e2]. simpl in *.
  unfold merge_overlapping_ranges, sorted_by_start. simpl.
  apply Qle_bool_false in Hord. rewrite Hord. simpl.
  apply Qle_bool_iff in Hgap. rewrite Hgap. reflexivity.
Qed.

(** ** [np.array_split] *)

Lemma list_sum_repeat (x k : nat) : list_sum (repeat x k) = (k * x)%nat.
Proof. induction k as [|k IH]; simpl; [reflexivity | rewrite IH; lia]. Qed.

Lemma section_sizes_length (ntotal n : Z) :
  (0 <= ntotal)%Z -> (0 < n)%Z ->
  length (section_sizes ntotal n) = Z.to_nat n.
Proof.
  intros Ht Hn. unfold section_sizes.
  rewrite length_app, !repeat_length.
  pose proof (Z.mod_pos_bound ntotal n Hn). lia.
Qed.

Lemma section_sizes_sum (ntotal n : Z) :
  (0 <= ntotal)%Z -> (0 < n)%Z ->
  list_sum (section_sizes ntotal n) = Z.to_nat ntotal.
Proof.
  intros Ht Hn. unfold section_sizes.
  rewrite list_sum_app, !list_sum_repeat.
  pose proof (Z.mod_pos_bound ntotal n Hn) as Hm.
  pose proof (Z.div_pos ntotal n Ht Hn) as Hd.
  pose proof (Z.div_mod ntotal n ltac:(lia)) as He.
  nia.
Qed.

Lemma section_sizes_each (ntotal n : Z) (x : nat) :
  (0 <= ntotal)%Z -> (0 < n)%Z ->
  In x (section_sizes ntotal n) ->
  Z.of_nat x = (ntotal / n)%Z \/ Z.of_nat x = (ntotal / n + 1)%Z.
Proof.
  intros Ht Hn Hx. unfold section_sizes in Hx.
  pose proof (Z.div_pos ntotal n Ht Hn) as Hd.
  apply in_app_or in Hx. destruct Hx as [Hx|Hx];
    apply repeat_spec in Hx; subst x; lia.
Qed.

Lemma section_sizes_exact (ntotal n : Z) (x : nat) :
  (0 <= ntotal)%Z -> (0 < n)%Z -> (ntotal mod n = 0)%Z ->
  In x (section_sizes ntotal n) -> Z.of_nat x = (ntotal / n)%Z.
Proof.
  intros Ht Hn Hm Hx. unfold section_sizes in Hx. rewrite Hm in Hx.
  simpl in Hx. apply repeat_spec in Hx. subst x.
  pose proof (Z.div_pos ntotal n Ht Hn). lia.
Qed.

Lemma slices_take_sections {A : Type} (ary : list A) (sizes : list nat)
    (a : nat) :
  map (fun i => slice ary (nth i (a :: cumsum_from a sizes) 0%nat)
                          (nth (S i) (a :: cumsum_from a sizes) 0%nat))
      (seq 0 (length sizes)) =
  take_sections (skipn a ary) sizes.
Proof.
  revert a. induction sizes as [|n t IH]; intros a; [reflexivity|].
  cbn [length seq map take_sections cumsum_from]. f_equal.
  - unfold slice. cbn [nth]. replace (a + n - a)%nat with n by lia.
    reflexivity.
  - rewrite <- seq_shift, map_map, skipn_skipn.
    replace (n + a)%nat with (a + n)%nat by lia.
    rewrite <- (IH (a + n)%nat). reflexivity.
Qed.

Lemma array_split_sections {A : Type} (ary : list A) (n : Z) :
  (0 < n)%Z ->
  array_split ary n =
  Ok (take_sections ary (section_sizes (Z.of_nat (length ary)) n)).
Proof.
  intros Hn. unfold array_split.
  destruct (n <=? 0)%Z eqn:E; [apply Z.leb_le in E; lia|].
  f_equal. cbn [cumsum_from]. rewrite Nat.add_0_r.
  rewrite <- (section_sizes_length (Z.of_nat (length ary)) n) by lia.
  apply (slices_take_sections ary _ 0%nat).
Qed.

Lemma take_sections_concat {A : Type} (sizes : list nat) (ary : list A) :
  list_sum sizes = length ary -> concat (take_sections ary sizes) = ary.
Proof.
  revert ary. induction sizes as [|n t IH]; intros ary Hs; simpl in *.
  - symmetry in Hs. apply length_zero_iff_nil in Hs. subst. reflexivity.
  - rewrite IH; [apply firstn_skipn|]. rewrite length_skipn. lia.
Qed.

Lemma take_sections_lengths {A : Type} (sizes : list nat) (ary : list A) :
  (list_sum sizes <= length ary)%nat ->
  map (@length A) (take_sections ary sizes) = sizes.
Proof.
  revert ary. induction sizes as [|n t IH]; intros ary Hs; simpl in *.
  - reflexivity.
  - rewrite length_firstn, IH; [f_equal; lia|].
    rewrite length_skipn. lia.
Qed.

Lemma take_sections_count {A : Type} (sizes : list nat) (ary : list A) :
  length (take_sections ary sizes) = length sizes.
Proof.
  revert ary. induction sizes as [|n t IH]; intros ary; simpl;
    [reflexivity | rewrite IH; reflexivity].
Qed.

(** Every property of the section sizes is one of the sections. *)
Lemma take_sections_Forall {A : Type} (P : nat -> Prop) (sizes : list nat)
    (ary : list A) :
  (list_sum sizes <= length ary)%nat ->
  (forall x, In x sizes -> P x) ->
  Forall (fun w => P (length w)) (take_sections ary sizes).
Proof.
  intros Hs HP. apply Forall_forall. intros w Hw.
  apply (in_map (@length A)) in Hw.
  rewrite (take_sections_lengths sizes ary Hs) in Hw. apply HP, Hw.
Qed.

(** ** The windows of the classifier *)

Lemma split_windows_sections (audio : list Q) (sample_rate : Z) :
  (0 < window_size sample_rate <= Z.of_nat (length audio))%Z ->
  split_windows audio sample_rate =
  Ok (take_sections audio
        (section_sizes (Z.of_nat (length audio))
           (Z.of_nat (length audio) / window_size sample_rate))).
Proof.
  intros [Hws Hlen]. unfold split_windows, py_floordiv.
  destruct (window_size sample_rate =? 0)%Z eqn:E;
    [apply Z.eqb_eq in E; lia|].
  cbn [result_bind]. apply array_split_sections.
  apply Z.div_str_pos. lia.
Qed.

(** C1 fails on the code: the windows are not of 100 ms and the rest of
    the buffer is not dropped.  25 samples at 100 Hz, where
    [window_size] is 10 samples, are analysed as one window of 13 and one
    of 12 samples (130 and 120 ms), the last 5 samples being part of the
    second window; windows of exactly 10 samples would be two windows of
    10 and a dropped rest of 5. *)
Theorem split_windows_not_100ms :
  let audio := map (fun k => inject_Z (Z.of_nat k)) (seq 0 25) in
  window_size 100 = 10%Z /\
  exists windows,
    split_windows audio 100 = Ok windows /\
    map (@length Q) windows = [13; 12]%nat /\
    concat windows = audio /\
    map (@length Q) (spec_windows 10 audio) = [10; 10]%nat /\
    windows <> spec_windows 10 audio.
Proof.
  simpl. split; [reflexivity|].
  eexists. split; [vm_compute; reflexivity|].
  split; [reflexivity|]. split; [reflexivity|]. split; [reflexivity|].
  intros H. apply (f_equal (map (@length Q))) in H.
  vm_compute in H. discriminate H.
Qed.

Section ClassifierFacts.
Context {ops : FloatOps}.

(** What [np.array_split] makes of the buffer.  When the buffer holds at
    least one window of [window_size = int(0.1 * sample_rate)] samples,
    the classifier analyses exactly [len // window_size] consecutive,
    non-overlapping windows that together are the whole buffer, with the
    RMS [sqrt(mean(sample^2))] of each; a window has [len // n] or
    [len // n + 1] samples ([n] the number of windows), never fewer than
    [window_size], and exactly [window_size] when the length is a
    multiple of it. *)
Lemma split_windows_partition (self : DerushWorker) (audio : list Q)
    (sample_rate : Z) :
  let ws := window_size sample_rate in
  let len := Z.of_nat (length audio) in
  (0 < ws)%Z -> (ws <= len)%Z ->
  exists windows,
    split_windows audio sample_rate = Ok windows /\
    Z.of_nat (length windows) = (len / ws)%Z /\
    concat windows = audio /\
    Forall (fun w => Z.of_nat (length w) = (len / (len / ws))%Z \/
                     Z.of_nat (length w) = (len / (len / ws) + 1)%Z)
           windows /\
    Forall (fun w => (ws <= Z.of_nat (length w))%Z) windows /\
    ((len mod ws = 0)%Z ->
     Forall (fun w => Z.of_nat (length w) = ws) windows) /\
    (forall w, window_rms w = np_sqrt (np_mean (map (fun x => x * x) w))) /\
    detect_nonsilent self audio sample_rate =
      match valid_windows_of self (map window_rms windows) with
      | [] => Ok []
      | i :: l =>
          Ok (merge_overlapping_ranges
                (collect_ranges self (i :: l) (length audio) sample_rate))
      end.
Proof.
  intros ws len Hws Hlen.
  assert (Hn : (0 < len / ws)%Z) by (apply Z.div_str_pos; lia).
  assert (Hlen0 : (0 <= len)%Z) by (unfold len; lia).
  assert (Hsum : list_sum (section_sizes len (len / ws)) = length audio).
  { rewrite section_sizes_sum by lia. unfold len. lia. }
  assert (Hmul : (ws * (len / ws) <= len)%Z)
    by (apply Z.mul_div_le; lia).
  exists (take_sections audio (section_sizes len (len / ws))).
  split; [apply split_windows_sections; fold ws len; lia|].
  split; [rewrite take_sections_count, section_sizes_length by lia; lia|].
  split; [apply take_sections_concat, Hsum|].
  split; [|split; [|split; [|split]]].
  - apply (take_sections_Forall
             (fun x => Z.of_nat x = (len / (len / ws))%Z \/
                       Z.of_nat x = (len / (len / ws) + 1)%Z)); [lia|].
    intros x Hx. apply section_sizes_each; assumption.
  - apply (take_sections_Forall (fun x => (ws <= Z.of_nat x)%Z)); [lia|].
    intros x Hx.
    assert (Hq : (ws <= len / (len / ws))%Z).
    { apply Z.div_le_lower_bound; lia. }
    destruct (section_sizes_each _ _ _ Hlen0 Hn Hx); lia.
  - intros Hmod.
    assert (Hex : len = (ws * (len / ws))%Z).
    { pose proof (Z.div_mod len ws ltac:(lia)). lia. }
    apply (take_sections_Forall (fun x => Z.of_nat x = ws)); [lia|].
    intros x Hx.
    assert (Hm : (len mod (len / ws) = 0)%Z).
    { symmetry. apply (Z.mod_unique len (len / ws) ws 0); lia. }
    rewrite (section_sizes_exact _ _ _ Hlen0 Hn Hm Hx).
    symmetry. apply (Z.div_unique len (len / ws) ws 0); lia.
  - reflexivity.
  - unfold detect_nonsilent.
    rewrite split_windows_sections by (fold ws len; lia).
    cbn [result_bind]. fold len ws.
    destruct (valid_windows_of self _); reflexivity.
Qed.

(** C10. A buffer shorter than one window is not classified as silent:
    the number of sections is 0, [np.array_split] raises and so does
    [detect_nonsilent]. *)
Theorem detect_nonsilent_short_buffer_raises (self : DerushWorker)
    (audio : list Q) (sample_rate : Z) :
  (Z.of_nat (length audio) < window_size sample_rate)%Z ->
  py_floordiv (Z.of_nat (length audio)) (window_size sample_rate) = Ok 0%Z /\
  detect_nonsilent self audio sample_rate =
    Raise (ValueError "number sections must be larger than 0.") /\
  detect_nonsilent self audio sample_rate <> Ok [].
Proof.
  intros Hlt.
  assert (Hdiv : py_floordiv (Z.of_nat (length audio))
                   (window_size sample_rate) = Ok 0%Z).
  { unfold py_floordiv.
    destruct (window_size sample_rate =? 0)%Z eqn:E;
      [apply Z.eqb_eq in E; lia|].
    rewrite Z.div_small by lia. reflexivity. }
  assert (Hraise : detect_nonsilent self audio sample_rate =
            Raise (ValueError "number sections must be larger than 0.")).
  { unfold detect_nonsilent, split_windows. rewrite Hdiv. reflexivity. }
  split; [exact Hdiv|]. split; [exact Hraise|].
  rewrite Hraise. discriminate.
Qed.
End ClassifierFacts.

Lemma split_windows_partition_witness :
  let audio := level (1 # 2) 25 in
  exists windows,
    split_windows audio 100 = Ok windows /\
    Z.of_nat (length windows) = 2%Z /\
    concat windows = audio.
Proof.
  destruct (@split_windows_partition example_ops
              (default_worker "talk.mp4") (level (1 # 2) 25) 100)
    as [windows [H1 [H2 [H3 _]]]].
  - vm_compute. reflexivity.
  - vm_compute. discriminate.
  - exists windows. split; [exact H1|]. split; [exact H2 | exact H3].
Defined.

Lemma detect_nonsilent_short_buffer_raises_witness :
  @detect_nonsilent example_ops (default_worker "talk.mp4")
    (level (1 # 2) 799) 8000 <> Ok [].
Proof.
  apply (@detect_nonsilent_short_buffer_raises example_ops
           (default_worker "talk.mp4") (level (1 # 2) 799) 8000).
  vm_compute. reflexivity.
Defined.

(** C2 fails on the code: the end of a run that is not the last one is
    not cut at the buffer duration.  One second of audio with a 100 ms
    silence at 0.6 s: the first run (windows 0 to 5) gives the range
    (0, 0.6 + 0.6), the last run gives (0.1, 1.0), and the merged result
    is the single range (0, 1.2), which ends after the buffer does. *)
Theorem detect_nonsilent_run_not_clamped :
  let self := example_worker "talk.mp4" in
  buffer_duration gap_near_end_audio 8000 == 1 /\
  @valid_windows_of example_ops self
    (map (@window_rms example_ops)
       (take_sections gap_near_end_audio (repeat 800%nat 10))) =
    [0; 1; 2; 3; 4; 5; 7; 8; 9]%nat /\
  exists r,
    @detect_nonsilent example_ops self gap_near_end_audio 8000 = Ok [r] /\
    fst r == 0 /\ snd r == 12 # 10 /\
    buffer_duration gap_near_end_audio 8000 < snd r.
Proof.
  cbv zeta. split; [vm_compute; reflexivity|].
  split; [vm_compute; reflexivity|].
  eexists. split; [vm_compute; reflexivity|].
  split; [reflexivity|]. split; vm_compute; reflexivity.
Qed.

(** ** What a computation adds to the trace *)

Section OnlyEmits.
Variable P : event -> bool.

Lemma only_emits_silent {A : Type} (m : M A) :
  (forall st, trace (snd (m st)) = trace st) -> only_emits P m.
Proof.
  intros H st. exists []. rewrite H, app_nil_r. split; reflexivity.
Qed.

Lemma only_emits_ret {A : Type} (a : A) : only_emits P (ret a).
Proof. apply only_emits_silent. reflexivity. Qed.

Lemma only_emits_raise {A : Type} (e : exn) : only_emits P (@raise A e).
Proof. apply only_emits_silent. reflexivity. Qed.

Lemma only_emits_lift_result {A : Type} (r : result A) :
  only_emits P (lift_result r).
Proof. apply only_emits_silent. reflexivity. Qed.

Lemma only_emits_get_temp_dir : only_emits P get_temp_dir.
Proof. apply only_emits_silent. reflexivity. Qed.

Lemma only_emits_get_temp_audio_path : only_emits P get_temp_audio_path.
Proof. apply only_emits_silent. reflexivity. Qed.

Lemma only_emits_set_temp_dir (d : string) : only_emits P (set_temp_dir d).
Proof. apply only_emits_silent. reflexivity. Qed.

Lemma only_emits_set_temp_audio_path (p : string) :
  only_emits P (set_temp_audio_path p).
Proof. apply only_emits_silent. reflexivity. Qed.

Lemma only_emits_emit (e : event) : P e = true -> only_emits P (emit e).
Proof.
  intros He st. exists [e]. simpl. rewrite He. split; reflexivity.
Qed.

Lemma only_emits_call {A : Type} (e : event)
    (answer : list event -> result A) :
  P e = true -> only_emits P (call e answer).
Proof.
  intros He st. exists [e]. simpl. rewrite He. split; reflexivity.
Qed.

Lemma only_emits_bind {A B : Type} (m : M A) (k : A -> M B) :
  only_emits P m -> (forall a, only_emits P (k a)) ->
  only_emits P (bind m k).
Proof.
  intros Hm Hk st. unfold bind.
  destruct (Hm st) as [evs [Ht Hp]].
  destruct (m st) as [[a|e] st1]; simpl in Ht.
  - destruct (Hk a st1) as [evs' [Ht' Hp']].
    exists (evs ++ evs'). rewrite Ht', Ht, app_assoc.
    split; [reflexivity|]. rewrite forallb_app, Hp, Hp'. reflexivity.
  - exists evs. split; assumption.
Qed.

Lemma only_emits_try_except {A : Type} (m : M A) (handles : exn -> bool)
    (h : exn -> M A) :
  only_emits P m -> (forall e, only_emits P (h e)) ->
  only_emits P (try_except m handles h).
Proof.
  intros Hm Hh st. unfold try_except.
  destruct (Hm st) as [evs [Ht Hp]].
  destruct (m st) as [[a|e] st1]; simpl in Ht.
  - exists evs. split; assumption.
  - destruct (handles e).
    + destruct (Hh e st1) as [evs' [Ht' Hp']].
      exists (evs ++ evs'). rewrite Ht', Ht, app_assoc.
      split; [reflexivity|]. rewrite forallb_app, Hp, Hp'. reflexivity.
    + exists evs. split; assumption.
Qed.
End OnlyEmits.

(** Break a computation down to its calls; what remains are the events
    that have to satisfy the predicate. *)
Ltac emits_step :=
  first
    [ apply only_emits_ret
    | apply only_emits_raise
    | apply only_emits_lift_result
    | apply only_emits_get_temp_dir
    | apply only_emits_get_temp_audio_path
    | apply only_emits_set_temp_dir
    | apply only_emits_set_temp_audio_path
    | apply only_emits_emit; reflexivity
    | apply only_emits_call; reflexivity
    | apply only_emits_bind; [|intros]
    | apply only_emits_try_except; [|intros]
    | match goal with
      | |- only_emits _ (match ?x with _ => _ end) => destruct x
      end ].

Ltac emits := repeat emits_step.

Section PipelineFacts.
Context {ops : FloatOps}.
Variable w : World.
Variable self : DerushWorker.

Lemma update_progress_quiet (v : Z) :
  only_emits no_transcoding (update_progress w v).
Proof. unfold update_progress. emits. Qed.

Lemma path_exists_quiet (p : string) :
  only_emits no_transcoding (path_exists w p).
Proof. unfold path_exists. emits. Qed.

Lemma remove_each_emits (P : event -> bool) (d : string)
    (files : list string) :
  (forall p, P (OsRemove p) = true) ->
  only_emits P (remove_each w d files).
Proof.
  intros HP. induction files as [|f rest IH]; simpl; [emits|].
  unfold try_remove, remove. emits; try exact IH.
  apply only_emits_call, HP.
Qed.

Lemma remove_each_quiet (d : string) (files : list string) :
  only_emits no_transcoding (remove_each w d files).
Proof. apply remove_each_emits. reflexivity. Qed.

Lemma cleanup_temp_directory_quiet :
  only_emits no_transcoding (cleanup_temp_directory w).
Proof.
  unfold cleanup_temp_directory. emits; try apply remove_each_quiet.
Qed.

Lemma audio_to_remove_quiet :
  only_emits no_transcoding (audio_to_remove w).
Proof. unfold audio_to_remove. emits. Qed.

Lemma cleanup_after_failure_quiet :
  only_emits no_transcoding (cleanup_after_failure w).
Proof.
  unfold cleanup_after_failure, remove. emits;
    try apply remove_each_quiet.
Qed.

Lemma load_and_analyse_quiet :
  only_emits no_transcoding (load_and_analyse w self).
Proof.
  unfold load_and_analyse, create_temp_directory. emits;
    try apply update_progress_quiet.
Qed.

(** The cleanup of the [except] block never raises. *)
Lemma cleanup_after_failure_ok (st : run_state) :
  fst (cleanup_after_failure w st) = Ok tt.
Proof.
  unfold cleanup_after_failure, try_except.
  match goal with |- context [match ?m st with _ => _ end] =>
    destruct (m st) as [[[]|e] st'] end; reflexivity.
Qed.
Lemma distinct_errors :
  no_segment_detected <> nothing_to_concat /\
  no_segment_detected <> extraction_failed /\
  no_segment_detected <> concatenation_failed.
Proof. repeat split; discriminate. Qed.

(** C7. When the classifier yields no range, the run fails with the
    "no segment detected" [ValueError], an error different from every
    other error the worker raises itself, and the whole run contains no
    call of the segment extractor, no call of the concatenator and no
    transcoder process. *)
Theorem run_no_segments (d : string) (video : VideoClip)
    (st1 : run_state) :
  load_and_analyse w self initial_state = (Ok (d, video, []), st1) ->
  exists st2,
    run w self initial_state = (Raise no_segment_detected, st2) /\
    forallb no_transcoding (trace st2) = true /\
    no_segment_detected <> nothing_to_concat /\
    no_segment_detected <> extraction_failed /\
    no_segment_detected <> concatenation_failed.
Proof.
  intros Hload.
  destruct (load_and_analyse_quiet initial_state) as [evs1 [Ht1 Hq1]].
  rewrite Hload in Ht1. simpl in Ht1.
  destruct (cleanup_after_failure_quiet st1) as [evs2 [Ht2 Hq2]].
  pose proof (cleanup_after_failure_ok st1) as Hok.
  destruct (cleanup_after_failure w st1) as [r st2] eqn:Hc.
  simpl in Ht2, Hok. subst r.
  exists st2. split; [|split; [|apply distinct_errors]].
  - unfold run, try_except, run_try, bind at 1. rewrite Hload.
    cbn. unfold bind. rewrite Hc. reflexivity.
  - rewrite Ht2, Ht1, forallb_app, Hq1, Hq2. reflexivity.
Qed.

(** C8. Given an empty list, [concat_segments_ffmpeg] raises its own
    [ValueError] at once: the only thing the call leaves in the trace is
    the call itself (no test of a path, no manifest written, no
    process), and the error is not the "no segment detected" error of
    the analysis. *)
Theorem concat_empty_list_raises (output_file : string)
    (st : run_state) :
  concat_segments_ffmpeg w [] output_file st =
    (Raise nothing_to_concat,
     {| temp_dir := temp_dir st;
        temp_audio_path := temp_audio_path st;
        trace := trace st ++ [CallConcatSegments [] output_file] |}) /\
  nothing_to_concat <> no_segment_detected.
Proof. split; [reflexivity | discriminate]. Qed.
(** ** Failure of a run *)

Lemma emit_bind_starts {A : Type} (e : event) (k : unit -> M A)
    (st : run_state) :
  only_emits (fun _ => true) (k tt) ->
  exists evs, trace (snd (bind (emit e) k st)) = trace st ++ e :: evs.
Proof.
  intros Hk. unfold bind, emit.
  match goal with |- context [k tt ?s] =>
    destruct (Hk s) as [evs [Ht _]] end.
  exists evs. rewrite Ht. cbn [trace]. rewrite <- app_assoc. reflexivity.
Qed.

Lemma cleanup_temp_directory_starts (st : run_state) :
  exists evs,
    trace (snd (cleanup_temp_directory w st)) =
    trace st ++ CallCleanupTempDirectory :: evs.
Proof.
  unfold cleanup_temp_directory. apply emit_bind_starts.
  emits. apply remove_each_emits. reflexivity.
Qed.
(** From [Hc], which says that the cleanup of the [except] block ends in
    the state of a call of [cleanup_temp_directory], and [Ht], the trace
    of that state: the events of that call. *)
Ltac cleanup_started Hc Ht :=
  match type of Hc with
  | context [cleanup_temp_directory ?w ?s] =>
      let evs' := fresh "evs" in
      let He := fresh "He" in
      let Hcl := fresh "Hcl" in
      destruct (cleanup_temp_directory_starts s) as [evs' He];
      destruct (cleanup_temp_directory w s) as [[[]|?] ?] eqn:Hcl;
      cbn in Hc; injection Hc as <-;
      cbn [snd trace] in He; rewrite He in Ht;
      rewrite <- ?app_assoc in Ht; cbn [app] in Ht;
      rewrite ?app_nil_r
  end.

(** X27. What holds of every failing run: the exception of the [try] body is
    the one [run] raises, nothing is transcoded after it, and the
    removal of the workspace is started unless the removal of the audio
    file raised. *)
Lemma run_failure_cleanup (st st1 : run_state) (e : exn) :
  run_try w self st = (Raise e, st1) ->
  exists st2 evs,
    run w self st = (Raise e, st2) /\
    trace st2 = trace st1 ++ evs /\
    forallb no_transcoding evs = true /\
    (In CallCleanupTempDirectory evs \/
     exists p err,
       truthy_path (temp_audio_path st1) = Some p /\
       os_remove w (trace st1 ++ [OsPathExists p]) p = Raise err).
Proof.
  intros Htry.
  destruct (cleanup_after_failure_quiet st1) as [evs [Ht Hq]].
  pose proof (cleanup_after_failure_ok st1) as Hok.
  destruct (cleanup_after_failure w st1) as [r st2] eqn:Hc.
  simpl in Ht, Hok. subst r.
  exists st2, evs. split; [|split; [exact Ht|split; [exact Hq|]]].
  - unfold run, try_except. rewrite Htry. cbn. unfold bind.
    rewrite Hc. reflexivity.
  - unfold cleanup_after_failure, try_except, audio_to_remove in Hc.
    unfold bind at 1 2 in Hc. cbn [get_temp_audio_path] in Hc.
    destruct (truthy_path (temp_audio_path st1)) as [p|] eqn:Hp.
    + unfold bind at 1, path_exists, call in Hc. cbn [ret] in Hc.
      destruct (os_path_exists w (trace st1) p).
      * unfold bind at 1, remove, call in Hc. cbn [temp_dir
          temp_audio_path trace] in Hc.
        destruct (os_remove w (trace st1 ++ [OsPathExists p]) p)
          as [[]|err] eqn:Hrm.
        -- left. cleanup_started Hc Ht;
             apply app_inv_head in Ht; subst evs; simpl; tauto.
        -- right. exists p, err. split; first [assumption | reflexivity].
      * left. unfold bind in Hc. cbn [ret] in Hc. cleanup_started Hc Ht;
          apply app_inv_head in Ht; subst evs; simpl; tauto.
    + left. unfold bind in Hc. cbn [ret] in Hc. cleanup_started Hc Ht;
        apply app_inv_head in Ht; subst evs; simpl; tauto.
Qed.
End PipelineFacts.

Lemma run_no_segments_witness :
  exists st2,
    @run example_ops silent_world (example_worker "/videos/talk.mov")
      initial_state = (Raise no_segment_detected, st2) /\
    forallb no_transcoding (trace st2) = true.
Proof.
  destruct (@run_no_segments example_ops silent_world
              (example_worker "/videos/talk.mov") "/tmp/derusher_k3x"
              {| duration := 1 # 2 |}
              {| temp_dir := Some "/tmp/derusher_k3x";
                 temp_audio_path := Some "/tmp/tmpq1.wav";
                 trace := [Mkdtemp; ProgressCallback 5;
                           OpenVideoFileClip "/videos/talk.mov";
                           ProgressCallback 10; NamedTemporaryFile;
                           WriteAudiofile "/tmp/tmpq1.wav";
                           ProgressCallback 25; SfRead "/tmp/tmpq1.wav"] |})
    as [st2 [Hrun [Htrace _]]].
  - vm_compute. reflexivity.
  - exists st2. split; [exact Hrun | exact Htrace].
Defined.

(** C6 fails on the code.  The classifier finds five ranges and the
    extraction of the third fails.  When the removal of the audio file
    raises as well, the [except] block leaves its [try] there: the run
    raises the extraction error and has not called the concatenator, but
    no step of the removal of the workspace is ever attempted.  With a
    removable audio file the same failure is followed by the removal of
    the workspace, and so is a successful run whose audio file cannot be
    removed. *)
Theorem run_failure_skips_workspace_cleanup :
  let failed := @run example_ops third_extraction_fails_audio_locked
                  talk_worker initial_state in
  let failed_unlocked := @run example_ops third_extraction_fails
                           talk_worker initial_state in
  let succeeded := @run example_ops audio_locked talk_worker
                     initial_state in
  result_bind (@detect_nonsilent example_ops talk_worker
                 five_bursts_audio 1000)
    (fun ranges => Ok (length ranges)) = Ok 5%nat /\
  fst failed = Raise extraction_failed /\
  existsb concat_call (trace (snd failed)) = false /\
  existsb (event_is_remove "/tmp/tmpq1.wav") (trace (snd failed)) = true /\
  existsb workspace_removal_event (trace (snd failed)) = false /\
  fst failed_unlocked = Raise extraction_failed /\
  existsb workspace_removal_event (trace (snd failed_unlocked)) = true /\
  fst succeeded = Ok "/videos/talk_derushed.mp4" /\
  existsb workspace_removal_event (trace (snd succeeded)) = true.
Proof.
  cbv zeta. repeat split; vm_compute; reflexivity.
Qed.

(** ** Paths *)

Lemma str_take_drop (n : nat) (s : string) :
  (str_take n s ++ str_drop n s)%string = s.
Proof.
  revert s. induction n as [|n IH]; intros [|c t]; simpl;
    try reflexivity. rewrite IH. reflexivity.
Qed.

Lemma str_take_length (n : nat) (s : string) :
  (n <= String.length s)%nat -> String.length (str_take n s) = n.
Proof.
  revert s. induction n as [|n IH]; intros [|c t] H; simpl in *;
    try reflexivity; try lia. rewrite IH; [reflexivity | lia].
Qed.

Lemma str_take_app (n : nat) (s1 s2 : string) :
  (n <= String.length s1)%nat ->
  str_take n (s1 ++ s2)%string = str_take n s1.
Proof.
  revert s1. induction n as [|n IH]; intros [|c t] H; simpl in *;
    try reflexivity; try lia.
  rewrite IH; [reflexivity | lia].
Qed.

Lemma str_take_take (n m : nat) (s : string) :
  (n <= m)%nat -> str_take n (str_take m s) = str_take n s.
Proof.
  revert m s. induction n as [|n IH]; intros [|m] [|c t] H; simpl;
    try reflexivity; try lia. rewrite IH; [reflexivity | lia].
Qed.

Lemma rfind_bounds (c : ascii) (s : string) :
  (-1 <= rfind c s < Z.of_nat (String.length s))%Z.
Proof.
  induction s as [|a t IH]; simpl; [lia|].
  destruct (0 <=? rfind c t)%Z eqn:E; [lia|].
  destruct (Ascii.eqb a c); lia.
Qed.

Lemma rfind_app (c : ascii) (s1 s2 : string) :
  rfind c (s1 ++ s2)%string =
  if (0 <=? rfind c s2)%Z
  then (Z.of_nat (String.length s1) + rfind c s2)%Z
  else rfind c s1.
Proof.
  induction s1 as [|a t IH]; simpl String.length; cbn [append rfind].
  - pose proof (rfind_bounds c s2).
    destruct (0 <=? rfind c s2)%Z eqn:E; [lia|].
    apply Z.leb_gt in E. lia.
  - rewrite IH. destruct (0 <=? rfind c s2)%Z eqn:E.
    + apply Z.leb_le in E.
      destruct (0 <=? Z.of_nat (String.length t) + rfind c s2)%Z eqn:E';
        [lia | apply Z.leb_gt in E'; lia].
    + reflexivity.
Qed.

Lemma splitext_join (p : string) :
  (fst (splitext p) ++ snd (splitext p))%string = p.
Proof.
  unfold splitext.
  match goal with |- context [if ?b then _ else _] => destruct b end; simpl.
  - apply str_take_drop.
  - clear. induction p as [|c t IH]; simpl; [reflexivity|].
    rewrite IH. reflexivity.
Qed.

Lemma dirname_same_head (a b : string) :
  rfind "/" a = rfind "/" b ->
  str_take (Z.to_nat (rfind "/" b + 1)) a =
  str_take (Z.to_nat (rfind "/" b + 1)) b ->
  dirname a = dirname b.
Proof.
  intros Hr Ht. unfold dirname. rewrite Hr, Ht. reflexivity.
Qed.

(** The root of a path holds all its slashes. *)
Lemma splitext_root_rfind (p : string) :
  rfind "/" (fst (splitext p)) = rfind "/" p /\
  (rfind "/" p < Z.of_nat (String.length (fst (splitext p))))%Z /\
  exists n, fst (splitext p) = str_take n p /\
            (n <= String.length p)%nat.
Proof.
  pose proof (rfind_bounds "/" p) as Hsep.
  pose proof (rfind_bounds "." p) as Hdot.
  unfold splitext.
  destruct (rfind "/" p <? rfind "." p)%Z eqn:E; cbn [andb].
  - apply Z.ltb_lt in E.
    match goal with |- context [if ?b then _ else _] => destruct b end;
      cbn [fst].
    + assert (Hlen : String.length (str_take (Z.to_nat (rfind "." p)) p) =
                     Z.to_nat (rfind "." p))
        by (apply str_take_length; lia).
      split; [|split].
      * pose proof (str_take_drop (Z.to_nat (rfind "." p)) p) as Hj.
        pose proof (rfind_app "/" (str_take (Z.to_nat (rfind "." p)) p)
                      (str_drop (Z.to_nat (rfind "." p)) p)) as Ha.
        rewrite Hj, Hlen in Ha.
        destruct (0 <=? rfind "/" (str_drop (Z.to_nat (rfind "." p)) p))%Z
          eqn:E2.
        -- apply Z.leb_le in E2. lia.
        -- symmetry. exact Ha.
      * rewrite Hlen. lia.
      * exists (Z.to_nat (rfind "." p)). split; [reflexivity | lia].
    + split; [reflexivity|]. split; [lia|].
      exists (String.length p). split; [|lia].
      clear. induction p as [|c t IH]; simpl; [reflexivity|].
      rewrite <- IH. reflexivity.
  - cbn [fst]. split; [reflexivity|]. split; [lia|].
    exists (String.length p). split; [|lia].
    clear. induction p as [|c t IH]; simpl; [reflexivity|].
    rewrite <- IH. reflexivity.
Qed.

Lemma output_path_same_directory (p : string) :
  dirname (output_path_of p) = dirname p.
Proof.
  destruct (splitext_root_rfind p) as [Hr [Hlt [n [Hn Hle]]]].
  pose proof (rfind_bounds "/" p) as Hsep.
  unfold output_path_of.
  assert (Hrf : rfind "/" (fst (splitext p) ++ "_derushed.mp4")%string =
                rfind "/" p).
  { rewrite rfind_app. simpl. exact Hr. }
  apply dirname_same_head; [exact Hrf|].
  rewrite str_take_app by lia.
  rewrite Hn. apply str_take_take.
  rewrite Hn in Hlt. rewrite str_take_length in Hlt by lia. lia.
Qed.

(** ** The result of a successful run *)

Lemma bind_Ok_inv {A B : Type} (m : M A) (k : A -> M B) (st st' : run_state)
    (b : B) :
  bind m k st = (Ok b, st') ->
  exists a st1, m st = (Ok a, st1) /\ k a st1 = (Ok b, st').
Proof.
  unfold bind. destruct (m st) as [[a|e] st1]; intros H.
  - exists a, st1. split; [reflexivity | exact H].
  - discriminate H.
Qed.

Ltac bind_inv H :=
  apply bind_Ok_inv in H; destruct H as (? & ? & _ & H).

Section PipelineResult.
Context {ops : FloatOps}.
Variable w : World.
Variable self : DerushWorker.

Lemma run_try_result (st st' : run_state) (out : string) :
  run_try w self st = (Ok out, st') ->
  out = output_path_of (video_path self).
Proof.
  unfold run_try. intros H.
  bind_inv H. destruct x as [[d video] [|r ranges]]; [discriminate H|].
  do 4 bind_inv H.
  match type of H with (if ?b then _ else _) _ = _ => destruct b end;
    [|discriminate H].
  do 5 bind_inv H.
  injection H as H _. symmetry. exact H.
Qed.

Lemma run_Ok_inv (st st' : run_state) (out : string) :
  run w self st = (Ok out, st') -> run_try w self st = (Ok out, st').
Proof.
  unfold run, try_except.
  destruct (run_try w self st) as [[a|e] st1]; [trivial|].
  cbn. unfold bind.
  destruct (cleanup_after_failure w st1) as [[[]|e'] st2]; discriminate.
Qed.

(** C9 (amended). The path a successful run returns is a function of the
    input path alone: the input path without its extension, followed by
    "_derushed" and the extension ".mp4".  It lies in the directory of
    the input, and the extension of the input is kept only when it is
    ".mp4". *)
Theorem run_output_path (st st' : run_state) (out : string) :
  run w self st = (Ok out, st') ->
  out = output_path_of (video_path self) /\
  exists root ext,
    splitext (video_path self) = (root, ext) /\
    video_path self = (root ++ ext)%string /\
    out = (root ++ "_derushed" ++ ".mp4")%string /\
    dirname out = dirname (video_path self) /\
    (ext = ".mp4" -> out = (root ++ "_derushed" ++ ext)%string).
Proof.
  intros H. apply run_Ok_inv, run_try_result in H. subst out.
  split; [reflexivity|].
  pose proof (splitext_join (video_path self)) as Hj.
  destruct (splitext (video_path self)) as [root ext] eqn:Hs.
  exists root, ext. cbn [fst snd] in Hj.
  split; [reflexivity|]. split; [symmetry; exact Hj|].
  assert (Ho : output_path_of (video_path self) =
               (root ++ "_derushed" ++ ".mp4")%string).
  { unfold output_path_of. rewrite Hs. reflexivity. }
  split; [exact Ho|]. split; [apply output_path_same_directory|].
  intros ->. exact Ho.
Qed.
End PipelineResult.

Lemma run_output_path_witness :
  exists st',
    @run example_ops talk_world (example_worker "/videos/talk.mp4")
      initial_state = (Ok "/videos/talk_derushed.mp4", st') /\
    dirname "/videos/talk_derushed.mp4" = dirname "/videos/talk.mp4".
Proof.
  eexists. split; [vm_compute; reflexivity|].
  destruct (@run_output_path example_ops talk_world
              (example_worker "/videos/talk.mp4") initial_state
              (snd (@run example_ops talk_world
                      (example_worker "/videos/talk.mp4") initial_state))
              "/videos/talk_derushed.mp4")
    as [_ [root [ext [_ [_ [_ [Hd _]]]]]]].
  - vm_compute. reflexivity.
  - exact Hd.
Defined.

(** C9, as stated, fails: for the input [/videos/talk.mov] a successful
    run returns [/videos/talk_derushed.mp4]; whatever the suffix, this is
    not the input with the suffix put before its extension [.mov]. *)
Lemma output_extension_not_preserved_counterexample :
  fst (@run example_ops talk_world talk_worker initial_state) =
    Ok "/videos/talk_derushed.mp4" /\
  splitext "/videos/talk.mov" = ("/videos/talk", ".mov") /\
  forall suffix : string,
    "/videos/talk_derushed.mp4" <>
    ("/videos/talk" ++ suffix ++ ".mov")%string.
Proof.
  split; [vm_compute; reflexivity|]. split; [reflexivity|].
  intros suffix H. simpl in H.
  injection H as H.
  repeat (destruct suffix as [|? suffix]; simpl in H;
          [discriminate H | injection H as _ H]).
  destruct suffix; simpl in H; discriminate H.
Qed.

(** * Further properties of the range merger *)

Lemma sorted_by_start_In (x : range) (l : list range) :
  In x (sorted_by_start l) <-> In x l.
Proof.
  induction l as [|r l IH]; simpl; [tauto|].
  rewrite insert_by_start_In, IH. intuition congruence.
Qed.

Lemma insert_by_start_length (r : range) (l : list range) :
  length (insert_by_start r l) = S (length l).
Proof.
  induction l as [|h t IH]; simpl; [reflexivity|].
  destruct (Qle_bool (fst r) (fst h)); simpl; [reflexivity|].
  rewrite IH. reflexivity.
Qed.

Lemma sorted_by_start_length (l : list range) :
  length (sorted_by_start l) = length l.
Proof.
  induction l as [|r l IH]; simpl; [reflexivity|].
  rewrite insert_by_start_length, IH. reflexivity.
Qed.

Lemma py_max_cases (a b : Q) : py_max a b = a \/ py_max a b = b.
Proof. unfold py_max. destruct (Qlt_bool a b); auto. Qed.

(** The current range of the sweep only grows. *)
Lemma sweep_current (rest : list range) (cs ce : Q) :
  exists ce' t, sweep cs ce rest = (cs, ce') :: t /\ ce <= ce'.
Proof.
  revert cs ce. induction rest as [|[s e] t IH]; intros cs ce; simpl.
  - exists ce, []. split; [reflexivity | lra].
  - destruct (Qle_bool s (ce + min_segment_gap)).
    + destruct (IH cs (py_max ce e)) as [ce' [t' [E H]]].
      exists ce', t'. split; [exact E|].
      pose proof (py_max_ge_l ce e). lra.
    + exists ce, (sweep s e t). split; [reflexivity | lra].
Qed.

Lemma sweep_covers (rest : list range) (cs ce : Q) (r : range) :
  StronglySorted start_le ((cs, ce) :: rest) ->
  In r ((cs, ce) :: rest) ->
  exists o, In o (sweep cs ce rest) /\ covers o r.
Proof.
  revert cs ce r. induction rest as [|[s e] t IH]; intros cs ce r Hs Hr.
  - destruct Hr as [<-|[]]. exists (cs, ce). simpl.
    split; [auto|]. unfold covers. simpl. lra.
  - inversion Hs as [|? ? Hrest Hall]; subst.
    inversion Hrest as [|? ? Ht Hallt]; subst.
    inversion Hall as [|? ? Hcs Hall']; subst.
    unfold start_le in Hcs. simpl in Hcs. simpl sweep.
    destruct (Qle_bool s (ce + min_segment_gap)).
    + assert (Hs' : StronglySorted start_le ((cs, py_max ce e) :: t))
        by (constructor; assumption).
      destruct Hr as [<-|[<-|Hr]].
      * destruct (IH cs (py_max ce e) _ Hs' (or_introl eq_refl))
          as [o [Ho [H1 H2]]].
        exists o. split; [exact Ho|]. unfold covers in *. simpl in *.
        pose proof (py_max_ge_l ce e). lra.
      * destruct (IH cs (py_max ce e) _ Hs' (or_introl eq_refl))
          as [o [Ho [H1 H2]]].
        exists o. split; [exact Ho|]. unfold covers in *. simpl in *.
        pose proof (py_max_ge_r ce e). lra.
      * apply (IH cs (py_max ce e) r Hs'). right. exact Hr.
    + destruct Hr as [<-|Hr].
      * exists (cs, ce). split; [left; reflexivity|].
        unfold covers. simpl. lra.
      * destruct (IH s e r Hrest Hr) as [o [Ho Hc]].
        exists o. split; [right; exact Ho | exact Hc].
Qed.

Lemma sweep_endpoints (all rest : list range) (cs ce : Q) :
  incl rest all -> from_ranges all (cs, ce) ->
  forall o, In o (sweep cs ce rest) -> from_ranges all o.
Proof.
  revert cs ce. induction rest as [|[s e] t IH]; intros cs ce Hin Hc o Ho.
  - destruct Ho as [<-|[]]. exact Hc.
  - assert (Hse : In (s, e) all) by (apply Hin; left; reflexivity).
    assert (Ht : incl t all) by (intros x Hx; apply Hin; right; exact Hx).
    simpl in Ho. destruct (Qle_bool s (ce + min_segment_gap)).
    + apply (IH cs (py_max ce e)); [exact Ht| |exact Ho].
      destruct Hc as [r1 [r2 [H1 [H2 [E1 [E2 Hle]]]]]]. simpl in *.
      destruct (py_max_cases ce e) as [E|E].
      * exists r1, r2. simpl. rewrite E. auto.
      * exists r1, (s, e). simpl. rewrite E.
        repeat split; try assumption; try reflexivity.
        pose proof (py_max_ge_l ce e). rewrite E in H. lra.
    + destruct Ho as [<-|Ho]; [exact Hc|].
      apply (IH s e); [exact Ht| |exact Ho].
      exists (s, e), (s, e). simpl. repeat split; try assumption; lra.
Qed.

Lemma merge_from_ranges (ranges : list range) (o : range) :
  In o (merge_overlapping_ranges ranges) -> from_ranges ranges o.
Proof.
  destruct ranges as [|r l]; [intros []|].
  rewrite merge_sorted_sweep.
  pose proof (sorted_by_start_In) as Hin.
  destruct (sorted_by_start (r :: l)) as [|[cs ce] rest] eqn:E;
    [intros []|].
  assert (Hc : In (cs, ce) (r :: l))
    by (apply (Hin (cs, ce) (r :: l)); rewrite E; left; reflexivity).
  apply sweep_endpoints.
  - intros x Hx. apply (Hin x (r :: l)). rewrite E. right. exact Hx.
  - exists (cs, ce), (cs, ce). simpl. repeat split; try assumption; lra.
Qed.

Lemma sweep_length (rest : list range) (cs ce : Q) :
  (1 <= length (sweep cs ce rest) <= S (length rest))%nat.
Proof.
  revert cs ce. induction rest as [|[s e] t IH]; intros cs ce; simpl.
  - lia.
  - destruct (Qle_bool s (ce + min_segment_gap)).
    + specialize (IH cs (py_max ce e)). lia.
    + specialize (IH s e). simpl. lia.
Qed.

(** X1. Nothing is lost in the merge: every input range lies within some
    output range. *)
Theorem merge_covers_input (ranges : list range) (r : range) :
  In r ranges ->
  exists o, In o (merge_overlapping_ranges ranges) /\ covers o r.
Proof.
  intros Hr. destruct ranges as [|r0 l]; [destruct Hr|].
  rewrite merge_sorted_sweep.
  pose proof (sorted_by_start_sorted (r0 :: l)) as Hs.
  apply sorted_by_start_In in Hr.
  destruct (sorted_by_start (r0 :: l)) as [|[cs ce] rest];
    [destruct Hr|].
  apply sweep_covers; assumption.
Qed.

Lemma merge_covers_input_witness :
  exists o, In o (merge_overlapping_ranges [(3, 4); (1, 2); (19 # 10, 5 # 2)])
            /\ covers o (3, 4).
Proof.
  apply (merge_covers_input [(3, 4); (1, 2); (19 # 10, 5 # 2)] (3, 4)).
  simpl. auto.
Defined.

(** X2. Nothing is invented in the merge: every output range starts at the
    start of an input range, ends at the end of an input range, and ends
    no earlier than the input range it starts with. *)
Theorem merge_output_from_input (ranges : list range) (o : range) :
  In o (merge_overlapping_ranges ranges) ->
  exists r1 r2, In r1 ranges /\ In r2 ranges /\
    fst o = fst r1 /\ snd o = snd r2 /\ snd r1 <= snd o.
Proof. apply merge_from_ranges. Qed.

Lemma merge_output_from_input_witness :
  exists r1 r2,
    In r1 [(3, 4); (1, 2); (19 # 10, 5 # 2)] /\
    In r2 [(3, 4); (1, 2); (19 # 10, 5 # 2)] /\
    fst (1, 5 # 2) = fst r1 /\ snd (1, 5 # 2) = snd r2 /\
    snd r1 <= snd (1, 5 # 2).
Proof.
  apply (merge_output_from_input [(3, 4); (1, 2); (19 # 10, 5 # 2)]
           (1, 5 # 2)).
  vm_compute. auto.
Defined.

(** X3. Input ranges that do not end before they start give output ranges
    that do not end before they start. *)
Theorem merge_keeps_well_formed (ranges : list range) :
  Forall well_formed ranges ->
  Forall well_formed (merge_overlapping_ranges ranges).
Proof.
  intros Hwf. apply Forall_forall. intros o Ho.
  destruct (merge_from_ranges ranges o Ho)
    as [r1 [r2 [H1 [H2 [E1 [E2 Hle]]]]]].
  rewrite Forall_forall in Hwf. specialize (Hwf r1 H1).
  unfold well_formed in *. rewrite E1. lra.
Qed.

Lemma merge_keeps_well_formed_witness :
  Forall well_formed
    (merge_overlapping_ranges [(3, 4); (1, 2); (19 # 10, 5 # 2)]).
Proof.
  apply (merge_keeps_well_formed [(3, 4); (1, 2); (19 # 10, 5 # 2)]).
  repeat constructor; unfold well_formed, Qle; simpl; lia.
Defined.

(** X4. The merger leaves a list unchanged exactly when the list is
    already sorted by start time with more than the minimum gap between
    consecutive ranges. *)
Theorem merge_fixed_point_iff (ranges : list range) :
  merge_overlapping_ranges ranges = ranges <->
  StronglySorted start_le ranges /\ Sorted gap_before ranges.
Proof.
  split.
  - intros E. split;
      [pose proof (merge_sorted ranges) as H
      |pose proof (merge_gaps ranges) as H];
      rewrite E in H; exact H.
  - intros [Hs Hg]. destruct ranges as [|[cs ce] rest]; [reflexivity|].
    rewrite merge_sorted_sweep, (sorted_by_start_id _ Hs).
    apply sweep_id, Hg.
Qed.

(** X5. The merger returns at most as many ranges as it is given, and at
    least one when it is given any. *)
Theorem merge_length (ranges : list range) :
  (length (merge_overlapping_ranges ranges) <= length ranges)%nat /\
  (ranges <> [] -> merge_overlapping_ranges ranges <> []).
Proof.
  destruct ranges as [|r l]; [split; [simpl; lia | congruence]|].
  rewrite merge_sorted_sweep.
  pose proof (sorted_by_start_length (r :: l)) as Hl.
  destruct (sorted_by_start (r :: l)) as [|[cs ce] rest];
    [discriminate Hl|].
  pose proof (sweep_length rest cs ce) as Hw. simpl in Hl.
  split; [simpl; lia|].
  intros _ E. rewrite E in Hw. simpl in Hw. lia.
Qed.

(** * Further properties of the silence classifier *)

Lemma py_min_le_r (a b : Q) : py_min a b <= b.
Proof.
  unfold py_min. destruct (Qlt_bool b a) eqn:E; [lra|].
  unfold Qlt_bool in E. rewrite negb_false_iff in E.
  apply Qle_bool_iff in E. exact E.
Qed.

Lemma py_min_le_l (a b : Q) : py_min a b <= a.
Proof.
  unfold py_min. destruct (Qlt_bool b a) eqn:E; [|lra].
  apply Qlt_bool_iff in E. lra.
Qed.

Section ClassifierRanges.
Context {ops : FloatOps}.
Variable self : DerushWorker.

Lemma group_step_kept (st : group_state) (i : nat) :
  Forall (kept_range self) (fst (fst st)) ->
  Forall (kept_range self) (fst (fst (group_step self st i))).
Proof.
  destruct st as [[ranges start_i] prev_i]. simpl. intros H.
  destruct (1 <? Z.of_nat i - Z.of_nat prev_i)%Z; simpl; [|exact H].
  destruct (Qle_bool _ _) eqn:E; simpl; [|exact H].
  apply Forall_app. split; [exact H|]. constructor; [|constructor].
  split; simpl; [apply py_max_ge_l | apply Qle_bool_iff, E].
Qed.

Lemma group_loop_kept (others : list nat) (st : group_state) :
  Forall (kept_range self) (fst (fst st)) ->
  Forall (kept_range self) (fst (fst (fold_left (group_step self) others st))).
Proof.
  revert st. induction others as [|i t IH]; intros st H; simpl;
    [exact H|]. apply IH, group_step_kept, H.
Qed.

Lemma collect_ranges_kept (valid_windows : list nat) (len : nat)
    (sample_rate : Z) :
  Forall (kept_range self) (collect_ranges self valid_windows len sample_rate).
Proof.
  destruct valid_windows as [|first others]; [constructor|].
  unfold collect_ranges.
  pose proof (group_loop_kept others ([], first, first)
                (Forall_nil (kept_range self))) as H.
  destruct (fold_left (group_step self) others ([], first, first))
    as [[ranges start_i] prev_i]. simpl in H.
  destruct (Qle_bool _ _) eqn:E; [|exact H].
  apply Forall_app. split; [exact H|]. constructor; [|constructor].
  split; simpl; [apply py_max_ge_l | apply Qle_bool_iff, E].
Qed.

Lemma detect_nonsilent_kept (audio : list Q) (sample_rate : Z)
    (out : list range) (o : range) :
  detect_nonsilent self audio sample_rate = Ok out -> In o out -> kept_range self o.
Proof.
  unfold detect_nonsilent. intros H Ho.
  destruct (split_windows audio sample_rate) as [windows|e];
    [|discriminate H]. cbn [result_bind] in H.
  destruct (valid_windows_of self (map window_rms windows))
    as [|i l]; injection H as <-; [destruct Ho|].
  destruct (merge_from_ranges _ _ Ho) as [r1 [r2 [H1 [_ [E1 [_ Hle]]]]]].
  pose proof (collect_ranges_kept (i :: l) (length audio) sample_rate)
    as Hk.
  rewrite Forall_forall in Hk. destruct (Hk r1 H1) as [K1 K2].
  split; [rewrite E1; exact K1|]. rewrite E1. lra.
Qed.

(** X6. No range returned by the classifier starts before 0. *)
Theorem detect_nonsilent_starts_nonnegative (audio : list Q)
    (sample_rate : Z) (out : list range) (o : range) :
  detect_nonsilent self audio sample_rate = Ok out -> In o out ->
  0 <= fst o.
Proof. intros H Ho. apply (detect_nonsilent_kept _ _ _ _ H Ho). Qed.

(** X7. Every range returned by the classifier lasts at least
    [min_silence_len]; with a positive [min_silence_len] it ends after it
    starts. *)
Theorem detect_nonsilent_min_length (audio : list Q) (sample_rate : Z)
    (out : list range) (o : range) :
  detect_nonsilent self audio sample_rate = Ok out -> In o out ->
  min_silence_len self <= snd o - fst o /\
  (0 < min_silence_len self -> fst o < snd o).
Proof.
  intros H Ho. destruct (detect_nonsilent_kept _ _ _ _ H Ho) as [_ K].
  split; [exact K | intros Hpos; lra].
Qed.

(** X8. With a sample rate below 10 Hz the window holds no sample and the
    classifier raises [ZeroDivisionError], whatever the audio. *)
Theorem detect_nonsilent_low_sample_rate (audio : list Q)
    (sample_rate : Z) :
  (-10 < sample_rate < 10)%Z ->
  window_size sample_rate = 0%Z /\
  detect_nonsilent self audio sample_rate =
    Raise (ZeroDivisionError "integer division or modulo by zero").
Proof.
  intros Hsr.
  assert (Hw : window_size sample_rate = 0%Z).
  { unfold window_size, py_int. simpl.
    destruct sample_rate as [|p|p].
    - reflexivity.
    - apply Z.quot_small. lia.
    - change (Z.neg p) with (- Z.pos p)%Z. rewrite Z.quot_opp_l by lia.
      rewrite Z.quot_small by lia. reflexivity. }
  split; [exact Hw|].
  unfold detect_nonsilent, split_windows, py_floordiv. rewrite Hw.
  reflexivity.
Qed.
End ClassifierRanges.

Lemma detect_nonsilent_starts_nonnegative_witness :
  0 <= fst (0, 12000 # 10000).
Proof.
  apply (@detect_nonsilent_starts_nonnegative example_ops
           (example_worker "talk.mp4") gap_near_end_audio 8000
           [(0, 12000 # 10000)] (0, 12000 # 10000)).
  - vm_compute. reflexivity.
  - left. reflexivity.
Defined.

Lemma detect_nonsilent_min_length_witness :
  min_silence_len (example_worker "talk.mp4") <=
  snd (0, 12000 # 10000) - fst (0, 12000 # 10000).
Proof.
  apply (@detect_nonsilent_min_length example_ops
           (example_worker "talk.mp4") gap_near_end_audio 8000
           [(0, 12000 # 10000)] (0, 12000 # 10000)).
  - vm_compute. reflexivity.
  - left. reflexivity.
Defined.

Lemma detect_nonsilent_low_sample_rate_witness :
  @detect_nonsilent example_ops (example_worker "talk.mp4")
    (level (1 # 2) 20) 8 =
  Raise (ZeroDivisionError "integer division or modulo by zero").
Proof.
  apply (@detect_nonsilent_low_sample_rate example_ops
           (example_worker "talk.mp4") (level (1 # 2) 20) 8).
  lia.
Defined.

Lemma window_time_mono (i j : nat) :
  (i <= j)%nat -> window_time i <= window_time j.
Proof.
  intros H. unfold window_time.
  apply Qmult_le_compat_r; [|unfold Qle; simpl; lia].
  rewrite <- Zle_Qle. lia.
Qed.

Section ClassifierBounds.
Context {ops : FloatOps}.
Variable self : DerushWorker.

Lemma valid_windows_bound (rms : list Q) (i : nat) :
  In i (valid_windows_of self rms) -> (i < length rms)%nat.
Proof.
  unfold valid_windows_of. intros H.
  apply in_map_iff in H. destruct H as [[i' r] [E H]]. simpl in E. subst i'.
  apply filter_In in H. destruct H as [H _].
  apply in_combine_l in H. apply in_seq in H. lia.
Qed.

(** The loop keeps its indices below [n] and the ends of its ranges at or
    below the end of window [n - 1] plus the margin. *)
Lemma group_loop_ends (n : nat) (others : list nat) (st : group_state) :
  Forall (fun i => (i < n)%nat) others ->
  (snd st < n)%nat ->
  Forall (fun r => snd r <= window_time n + margin self) (fst (fst st)) ->
  let st' := fold_left (group_step self) others st in
  (snd st' < n)%nat /\
  Forall (fun r => snd r <= window_time n + margin self) (fst (fst st')).
Proof.
  revert st. induction others as [|i t IH]; intros st Hall Hp Hr; simpl.
  - split; assumption.
  - inversion Hall as [|? ? Hi Ht]; subst.
    apply IH; [exact Ht| |];
      destruct st as [[ranges start_i] prev_i]; simpl in *;
      destruct (1 <? Z.of_nat i - Z.of_nat prev_i)%Z; simpl; try exact Hi;
      try exact Hr.
    destruct (Qle_bool _ _); [|exact Hr].
    apply Forall_app. split; [exact Hr|]. constructor; [|constructor].
    simpl. pose proof (window_time_mono (prev_i + 1) n ltac:(lia)). lra.
Qed.

Lemma collect_ranges_ends (n : nat) (valid_windows : list nat) (len : nat)
    (sample_rate : Z) :
  Forall (fun i => (i < n)%nat) valid_windows ->
  Forall (fun r => snd r <= window_time n + margin self)
    (collect_ranges self valid_windows len sample_rate).
Proof.
  intros Hall. destruct valid_windows as [|first others]; [constructor|].
  inversion Hall as [|? ? Hf Ho]; subst. unfold collect_ranges.
  destruct (group_loop_ends n others ([], first, first) Ho Hf
              (Forall_nil _)) as [Hp Hr].
  destruct (fold_left (group_step self) others ([], first, first))
    as [[ranges start_i] prev_i]. simpl in Hp, Hr.
  destruct (Qle_bool _ _); [|exact Hr].
  apply Forall_app. split; [exact Hr|]. constructor; [|constructor].
  simpl. pose proof (window_time_mono (prev_i + 1) n ltac:(lia)).
  pose proof (py_min_le_l (window_time (prev_i + 1) + margin self)
                (inject_Z (Z.of_nat len) / inject_Z sample_rate)). lra.
Qed.

(** X9. No range returned by the classifier ends later than the end of
    the last window (a tenth of a second per window) plus the margin. *)
Theorem detect_nonsilent_end_bound (audio : list Q) (sample_rate : Z)
    (windows : list (list Q)) (out : list range) (o : range) :
  split_windows audio sample_rate = Ok windows ->
  detect_nonsilent self audio sample_rate = Ok out -> In o out ->
  snd o <= window_time (length windows) + margin self.
Proof.
  unfold detect_nonsilent. intros Hw H Ho. rewrite Hw in H.
  cbn [result_bind] in H.
  pose proof (valid_windows_bound (map window_rms windows)) as Hb.
  rewrite length_map in Hb.
  destruct (valid_windows_of self (map window_rms windows))
    as [|i l]; injection H as <-; [destruct Ho|].
  destruct (merge_from_ranges _ _ Ho) as [r1 [r2 [_ [H2 [_ [E2 _]]]]]].
  assert (Hall : Forall (fun i0 => (i0 < length windows)%nat) (i :: l))
    by (apply Forall_forall; exact Hb).
  pose proof (collect_ranges_ends (length windows) (i :: l)
                (length audio) sample_rate Hall) as He.
  rewrite Forall_forall in He. rewrite E2. exact (He r2 H2).
Qed.

Lemma group_loop_one_run (k p start_i : nat) (ranges : list range) :
  fold_left (group_step self) (seq (S p) k) (ranges, start_i, p) =
  (ranges, start_i, (p + k)%nat).
Proof.
  revert p. induction k as [|k IH]; intros p; cbn [seq fold_left].
  - rewrite Nat.add_0_r. reflexivity.
  - assert (E : group_step self (ranges, start_i, p) (S p) =
                (ranges, start_i, S p)).
    { unfold group_step.
      destruct (1 <? Z.of_nat (S p) - Z.of_nat p)%Z eqn:E;
        [apply Z.ltb_lt in E; lia | reflexivity]. }
    rewrite E, IH. f_equal. lia.
Qed.

(** X10. When the valid windows are consecutive (one run of sound), the
    classifier returns at most one range, and that range lies between 0
    and the duration of the buffer. *)
Theorem detect_nonsilent_one_run (audio : list Q) (sample_rate : Z)
    (windows : list (list Q)) (a k : nat) :
  split_windows audio sample_rate = Ok windows ->
  valid_windows_of self (map window_rms windows) = seq a (S k) ->
  exists out,
    detect_nonsilent self audio sample_rate = Ok out /\
    (length out <= 1)%nat /\
    Forall (fun o => 0 <= fst o /\
                     snd o <= buffer_duration audio sample_rate) out.
Proof.
  intros Hw Hv. unfold detect_nonsilent. rewrite Hw. cbn [result_bind].
  rewrite Hv. cbn [seq]. eexists. split; [reflexivity|].
  unfold collect_ranges. rewrite group_loop_one_run.
  destruct (Qle_bool _ _).
  - split; [simpl; lia|]. constructor; [|constructor]. simpl.
    split; [apply py_max_ge_l | apply py_min_le_r].
  - split; [simpl; lia | constructor].
Qed.
End ClassifierBounds.

Lemma detect_nonsilent_end_bound_witness :
  snd (0, 12000 # 10000) <=
  window_time 10 + margin (example_worker "talk.mp4").
Proof.
  apply (@detect_nonsilent_end_bound example_ops
           (example_worker "talk.mp4") gap_near_end_audio 8000
           (take_sections gap_near_end_audio (repeat 800%nat 10))
           [(0, 12000 # 10000)] (0, 12000 # 10000)).
  - vm_compute. reflexivity.
  - vm_compute. reflexivity.
  - left. reflexivity.
Defined.

Lemma detect_nonsilent_one_run_witness :
  exists out,
    @detect_nonsilent example_ops (example_worker "talk.mp4")
      (level 0 800 ++ level (1 # 2) 1600 ++ level 0 800) 8000 = Ok out /\
    (length out <= 1)%nat /\
    Forall (fun o => 0 <= fst o /\
              snd o <= buffer_duration
                         (level 0 800 ++ level (1 # 2) 1600 ++ level 0 800)
                         8000) out.
Proof.
  apply (@detect_nonsilent_one_run example_ops (example_worker "talk.mp4")
           (level 0 800 ++ level (1 # 2) 1600 ++ level 0 800) 8000
           (take_sections (level 0 800 ++ level (1 # 2) 1600 ++ level 0 800)
              (repeat 800%nat 4)) 1 1).
  - vm_compute. reflexivity.
  - vm_compute. reflexivity.
Defined.

(** * Further properties of the worker's methods *)

Lemma with_trace_nil (st : run_state) : with_trace st [] = st.
Proof. destruct st. unfold with_trace. simpl. rewrite app_nil_r. reflexivity. Qed.

Lemma with_trace_app (st : run_state) (a b : list event) :
  with_trace (with_trace st a) b = with_trace st (a ++ b).
Proof. unfold with_trace. simpl. rewrite app_assoc. reflexivity. Qed.

Section MethodFacts.
Context {ops : FloatOps}.
Variable w : World.
Variable self : DerushWorker.

Lemma try_remove_trace (p : string) (st : run_state) :
  try_remove w p st = (Ok tt, with_trace st [OsRemove p]).
Proof.
  unfold try_remove, try_except, remove, call.
  destruct (os_remove w (trace st) p) as [[]|e]; reflexivity.
Qed.

Lemma remove_each_trace (d : string) (files : list string)
    (st : run_state) :
  remove_each w d files st =
  (Ok tt, with_trace st (map (fun f => OsRemove (path_join d f)) files)).
Proof.
  revert st. induction files as [|f rest IH]; intros st.
  - simpl. rewrite with_trace_nil. reflexivity.
  - cbn [remove_each map]. unfold bind. rewrite try_remove_trace, IH.
    rewrite with_trace_app. reflexivity.
Qed.

(** X11. The removal of the workspace is best effort: once the workspace
    is there and listed, [cleanup_temp_directory] tries to remove every
    listed file, in order, and then the directory, and returns normally,
    whichever of these removals fail. *)
Theorem cleanup_temp_directory_best_effort (st : run_state)
    (c : ascii) (d : string) (files : list string) :
  temp_dir st = Some (String c d) ->
  os_path_exists w (trace st ++ [CallCleanupTempDirectory]) (String c d)
    = true ->
  os_listdir w
    (trace st ++ [CallCleanupTempDirectory; OsPathExists (String c d)])
    (String c d) = Ok files ->
  cleanup_temp_directory w st =
  (Ok tt,
   with_trace st
     ([CallCleanupTempDirectory; OsPathExists (String c d);
       OsListdir (String c d)] ++
      map (fun f => OsRemove (path_join (String c d) f)) files ++
      [OsRmdir (String c d)])).
Proof.
  intros Hd Hex Hls.
  unfold cleanup_temp_directory, bind at 1 2, emit, get_temp_dir.
  cbn [temp_dir temp_audio_path trace]. rewrite Hd. cbn [truthy_path].
  unfold bind at 1, path_exists, call.
  cbn [temp_dir temp_audio_path trace]. rewrite Hex.
  unfold bind at 1, call. cbn [temp_dir temp_audio_path trace].
  rewrite <- app_assoc. cbn [app]. rewrite Hls.
  unfold bind. rewrite remove_each_trace.
  unfold try_except, call. cbn [with_trace temp_dir temp_audio_path trace].
  destruct (os_rmdir w _ (String c d)) as [[]|e]; cbn;
    unfold with_trace, ret; rewrite Hd; do 2 f_equal;
    rewrite <- !app_assoc; reflexivity.
Qed.

(** X12. [cleanup_temp_directory] raises only what [os.listdir] raised:
    failures of [os.remove] and [os.rmdir] never leave it. *)
Theorem cleanup_temp_directory_raises_only_listdir (st : run_state)
    (e : exn) :
  fst (cleanup_temp_directory w st) = Raise e ->
  exists d,
    temp_dir st = Some d /\
    os_listdir w
      (trace st ++ [CallCleanupTempDirectory; OsPathExists d]) d = Raise e.
Proof.
  unfold cleanup_temp_directory, bind at 1 2, emit, get_temp_dir.
  cbn [temp_dir temp_audio_path trace].
  destruct (temp_dir st) as [[|c d]|] eqn:Hd; cbn [truthy_path];
    try discriminate.
  unfold bind at 1, path_exists, call.
  cbn [temp_dir temp_audio_path trace].
  destruct (os_path_exists w _ (String c d)); [|discriminate].
  unfold bind at 1, call. cbn [temp_dir temp_audio_path trace].
  rewrite <- app_assoc. cbn [app].
  destruct (os_listdir w _ (String c d)) as [files|e'] eqn:Hls.
  - unfold bind. rewrite remove_each_trace.
    unfold try_except, call.
    destruct (os_rmdir w _ (String c d)) as [[]|e'']; discriminate.
  - cbn. intros H. injection H as <-. exists (String c d).
    split; [reflexivity | exact Hls].
Qed.
Lemma path_exists_trace (p : string) (st : run_state) :
  path_exists w p st =
  (Ok (os_path_exists w (trace st) p), with_trace st [OsPathExists p]).
Proof. reflexivity. Qed.

Lemma missing_among_trace (files : list string) (st : run_state) :
  exists missing,
    missing_among w files st =
      (Ok missing, with_trace st (map OsPathExists files)) /\
    incl missing files /\
    (forall f, In f files -> (forall tr, os_path_exists w tr f = false) ->
               In f missing).
Proof.
  revert st. induction files as [|f rest IH]; intros st.
  - exists []. simpl. rewrite with_trace_nil.
    split; [reflexivity|]. split; [apply incl_refl | intros ? []].
  - destruct (IH (with_trace st [OsPathExists f]))
      as [missing [E [Hincl Hall]]].
    exists (if os_path_exists w (trace st) f then missing
            else f :: missing).
    split; [|split].
    + cbn [missing_among map]. unfold bind at 1.
      rewrite path_exists_trace. unfold bind. rewrite E.
      rewrite with_trace_app. reflexivity.
    + destruct (os_path_exists w (trace st) f).
      * apply incl_tl, Hincl.
      * apply incl_cons; [left; reflexivity | apply incl_tl, Hincl].
    + intros g [<-|Hg] Hno.
      * rewrite Hno. left. reflexivity.
      * destruct (os_path_exists w (trace st) f);
          [|right]; apply Hall; assumption.
Qed.

(** X13. When one of the segment files is not there,
    [concat_segments_ffmpeg] raises [FileNotFoundError] naming missing
    files after it has tested every file: no manifest is written and no
    process is started. *)
Theorem concat_missing_segment (segment_files : list string)
    (output_file f : string) (st : run_state) :
  In f segment_files ->
  (forall tr, os_path_exists w tr f = false) ->
  exists missing,
    In f missing /\ incl missing segment_files /\
    concat_segments_ffmpeg w segment_files output_file st =
      (Raise (missing_segments missing),
       with_trace st
         (CallConcatSegments segment_files output_file ::
          map OsPathExists segment_files)).
Proof.
  intros Hf Hno.
  destruct (missing_among_trace segment_files
              (with_trace st [CallConcatSegments segment_files output_file]))
    as [missing [E [Hincl Hall]]].
  exists missing. split; [apply Hall; assumption|].
  split; [exact Hincl|].
  unfold concat_segments_ffmpeg, bind at 1, emit.
  destruct segment_files as [|g rest]; [destruct Hf|].
  unfold bind at 1. fold (with_trace st [CallConcatSegments (g :: rest) output_file]).
  rewrite E. destruct missing as [|m ms];
    [destruct (Hall f Hf Hno)|].
  unfold raise. rewrite with_trace_app. reflexivity.
Qed.

(** X14. [extract_segment_ffmpeg] starts exactly one process, asked for
    the duration [end - start] from [start]; it returns [True] when the
    process succeeds and [False] when it fails or ffmpeg is not found, and
    raises only other exceptions of [subprocess.run]. *)
Theorem extract_segment_ffmpeg_outcome (input_file output_file : string)
    (start_time end_time : Q) (st : run_state) :
  let called :=
    CallExtractSegment input_file output_file start_time end_time in
  let cmd :=
    FfmpegExtract input_file output_file start_time
      (end_time - start_time) in
  extract_segment_ffmpeg w input_file output_file start_time end_time st =
  (ffmpeg_outcome (subprocess_run w (trace st ++ [called]) cmd),
   with_trace st [called; SubprocessRun cmd]).
Proof.
  cbv zeta.
  unfold extract_segment_ffmpeg, bind at 1, emit, run_ffmpeg, try_except,
    bind, call. cbn [temp_dir temp_audio_path trace].
  destruct (subprocess_run w _ _) as [[]|[]]; cbn;
    unfold with_trace, ret; do 2 f_equal; rewrite <- app_assoc; reflexivity.
Qed.
End MethodFacts.

Lemma cleanup_temp_directory_best_effort_witness :
  cleanup_temp_directory stubborn_segment workspace_state =
  (Ok tt,
   with_trace workspace_state
     [CallCleanupTempDirectory; OsPathExists "/tmp/derusher_k3x";
      OsListdir "/tmp/derusher_k3x";
      OsRemove "/tmp/derusher_k3x/segment_0000.mp4";
      OsRemove "/tmp/derusher_k3x/segment_0001.mp4";
      OsRemove "/tmp/derusher_k3x/segment_0002.mp4";
      OsRmdir "/tmp/derusher_k3x"]).
Proof.
  apply (cleanup_temp_directory_best_effort stubborn_segment
           workspace_state "/"%char "tmp/derusher_k3x"
           three_segment_files); reflexivity.
Defined.

Lemma cleanup_temp_directory_raises_only_listdir_witness :
  exists d,
    temp_dir workspace_state = Some d /\
    os_listdir unlistable_workspace
      (trace workspace_state ++ [CallCleanupTempDirectory; OsPathExists d])
      d = Raise (OSError "[Errno 13] Permission denied").
Proof.
  apply (cleanup_temp_directory_raises_only_listdir unlistable_workspace
           workspace_state).
  reflexivity.
Defined.

Lemma concat_missing_segment_witness :
  exists missing,
    In "/tmp/derusher_k3x/segment_0001.mp4" missing /\
    incl missing
      ["/tmp/derusher_k3x/segment_0000.mp4";
       "/tmp/derusher_k3x/segment_0001.mp4"] /\
    concat_segments_ffmpeg second_segment_missing
      ["/tmp/derusher_k3x/segment_0000.mp4";
       "/tmp/derusher_k3x/segment_0001.mp4"]
      "/videos/talk_derushed.mp4" workspace_state =
    (Raise (missing_segments missing),
     with_trace workspace_state
       (CallConcatSegments
          ["/tmp/derusher_k3x/segment_0000.mp4";
           "/tmp/derusher_k3x/segment_0001.mp4"]
          "/videos/talk_derushed.mp4" ::
        map OsPathExists
          ["/tmp/derusher_k3x/segment_0000.mp4";
           "/tmp/derusher_k3x/segment_0001.mp4"])).
Proof.
  apply (concat_missing_segment second_segment_missing
           ["/tmp/derusher_k3x/segment_0000.mp4";
            "/tmp/derusher_k3x/segment_0001.mp4"]
           "/videos/talk_derushed.mp4"
           "/tmp/derusher_k3x/segment_0001.mp4" workspace_state).
  - right. left. reflexivity.
  - intros tr. reflexivity.
Defined.

(** * Further properties of the run *)

Lemma only_emits_bind_post {A B : Type} (P : event -> bool)
    (Q : A -> Prop) (m : M A) (k : A -> M B) :
  only_emits P m ->
  (forall st a, fst (m st) = Ok a -> Q a) ->
  (forall a, Q a -> only_emits P (k a)) ->
  only_emits P (bind m k).
Proof.
  intros Hm HQ Hk st. unfold bind.
  destruct (Hm st) as [evs [Ht Hp]]. specialize (HQ st).
  destruct (m st) as [[a|e] st1]; simpl in Ht.
  - destruct (Hk a (HQ a eq_refl) st1) as [evs' [Ht' Hp']].
    exists (evs ++ evs'). rewrite Ht', Ht, app_assoc.
    split; [reflexivity|]. rewrite forallb_app, Hp, Hp'. reflexivity.
  - exists evs. split; assumption.
Qed.

Section RunFacts.
Context {ops : FloatOps}.
Variable w : World.
Variable self : DerushWorker.

Lemma update_progress_emits (P : event -> bool) (v : Z) :
  P (ProgressCallback v) = true -> only_emits P (update_progress w v).
Proof.
  intros HP. unfold update_progress.
  destruct (progress_callback w);
    [apply only_emits_call, HP | apply only_emits_ret].
Qed.

Lemma missing_among_emits (P : event -> bool) (files : list string) :
  (forall p, P (OsPathExists p) = true) ->
  only_emits P (missing_among w files).
Proof.
  intros HP. induction files as [|f l IH]; cbn [missing_among];
    [apply only_emits_ret|].
  apply only_emits_bind; [apply only_emits_call, HP | intros b].
  apply only_emits_bind; [exact IH | intros; apply only_emits_ret].
Qed.

Lemma extract_segments_call_clamped (d : string) (video : VideoClip)
    (n i : nat) (ranges : list range) (acc : list string) :
  only_emits (call_clamped (duration video))
    (extract_segments w self d video n i ranges acc).
Proof.
  revert i acc. induction ranges as [|[s e] rest IH]; intros i acc;
    cbn [extract_segments]; [apply only_emits_ret|].
  apply only_emits_bind.
  - unfold extract_segment_ffmpeg, run_ffmpeg.
    apply only_emits_bind; [apply only_emits_emit | intros _].
    + cbn [call_clamped]. apply andb_true_intro. split;
        apply Qle_bool_iff; [apply py_max_ge_l | apply py_min_le_r].
    + apply only_emits_try_except; [|intros; apply only_emits_ret].
      apply only_emits_bind; [|intros; apply only_emits_ret].
      apply only_emits_call. reflexivity.
  - intros [|]; [|apply only_emits_raise].
    apply only_emits_bind; [|intros; apply IH].
    apply update_progress_emits. reflexivity.
Qed.

(** X15. The extraction loop clamps what it passes to the extractor:
    every call of [extract_segment_ffmpeg] it makes is given a
    [start_time] of 0 or more and an [end_time] of [video.duration] or
    less, whatever ranges the loop is given.  (The start is not compared
    with the duration, and the command line, which prints both times with
    three decimals, is not part of the statement.) *)
Theorem extract_segments_call_arguments (d : string) (video : VideoClip)
    (n i : nat) (ranges : list range) (acc : list string)
    (st : run_state) :
  exists evs,
    trace (snd (extract_segments w self d video n i ranges acc st)) =
      trace st ++ evs /\
    forall input output start_time end_time,
      In (CallExtractSegment input output start_time end_time) evs ->
      0 <= start_time /\ end_time <= duration video.
Proof.
  destruct (extract_segments_call_clamped d video n i ranges acc st)
    as [evs [Ht Hp]].
  exists evs. split; [exact Ht|].
  rewrite forallb_forall in Hp.
  intros input output a b Hin. specialize (Hp _ Hin).
  cbn [call_clamped] in Hp. apply andb_prop in Hp.
  destruct Hp as [H1 H2]. apply Qle_bool_iff in H1, H2. split; assumption.
Qed.

Lemma extract_segments_result (d : string) (video : VideoClip)
    (n : nat) (ranges : list range) :
  forall (i : nat) (acc files : list string) (st st' : run_state),
  extract_segments w self d video n i ranges acc st = (Ok files, st') ->
  files = acc ++ map (segment_file_name d) (seq i (length ranges)).
Proof.
  induction ranges as [|[s e] rest IH]; intros i acc files st st' H;
    cbn [extract_segments] in H.
  - injection H as <- _. simpl. rewrite app_nil_r. reflexivity.
  - apply bind_Ok_inv in H. destruct H as [[|] [st1 [_ H]]];
      [|discriminate H].
    apply bind_Ok_inv in H. destruct H as [_ [st2 [_ H]]].
    apply IH in H. rewrite H, <- app_assoc. reflexivity.
Qed.

(** X16. When every extraction succeeds, the loop returns one file per
    range, in the order of the ranges, named [segment_0000.mp4],
    [segment_0001.mp4], ... in the workspace. *)
Theorem extract_segments_files (d : string) (video : VideoClip)
    (ranges : list range) (files : list string) (st st' : run_state) :
  extract_segments w self d video (length ranges) 0 ranges [] st =
    (Ok files, st') ->
  files = map (segment_file_name d) (seq 0 (length ranges)).
Proof. intros H. apply extract_segments_result in H. exact H. Qed.

Lemma run_concat_calls :
  only_emits (concat_call_expected self) (run w self).
Proof.
  unfold run. apply only_emits_try_except.
  - unfold run_try. apply only_emits_bind.
    + unfold load_and_analyse, create_temp_directory. emits;
        apply update_progress_emits; reflexivity.
    + intros [[d video] [|r ranges]]; [apply only_emits_raise|].
      apply only_emits_bind; [emits | intros _].
      apply only_emits_bind;
        [apply update_progress_emits; reflexivity | intros _].
      apply (only_emits_bind_post _ (fun files => files <> [])).
      * generalize (r :: ranges) at 2 as rs. generalize 0%nat as i.
        generalize (@nil string) as acc. intros acc i rs. revert i acc.
        induction rs as [|[s e] rest IH]; intros i acc;
          cbn [extract_segments]; [emits|].
        unfold extract_segment_ffmpeg, run_ffmpeg. emits;
          try (apply update_progress_emits; reflexivity). apply IH.
      * intros st files H.
        destruct (extract_segments w self d video _ 0 (r :: ranges) [] st)
          as [res st'] eqn:E. simpl in H. subst res.
        apply extract_segments_result in E. subst files. discriminate.
      * intros files Hne. apply only_emits_bind.
        -- unfold concat_segments_ffmpeg. apply only_emits_bind.
           ++ apply only_emits_emit. cbn [concat_call_expected].
              destruct files; [congruence | apply String.eqb_refl].
           ++ intros _. destruct files as [|f0 files];
                [apply only_emits_raise|].
              unfold run_ffmpeg. emits.
              apply missing_among_emits. reflexivity.
        -- intros [|]; [|apply only_emits_raise].
           unfold audio_to_remove, try_remove, remove,
             cleanup_temp_directory. emits;
             try (apply update_progress_emits; reflexivity).
           apply remove_each_emits. reflexivity.
  - intros e. unfold cleanup_after_failure, audio_to_remove, remove,
      cleanup_temp_directory. emits.
    apply remove_each_emits. reflexivity.
Qed.

(** X17. Whatever the world does, a run calls the concatenator only with
    a list of at least one segment file and with the output path derived
    from the input path. *)
Theorem run_concat_call_expected (st : run_state) :
  exists evs,
    trace (snd (run w self st)) = trace st ++ evs /\
    forall segment_files output,
      In (CallConcatSegments segment_files output) evs ->
      segment_files <> [] /\ output = output_path_of (video_path self).
Proof.
  destruct (run_concat_calls st) as [evs [Ht Hp]].
  exists evs. split; [exact Ht|]. intros files output Hin.
  rewrite forallb_forall in Hp. specialize (Hp _ Hin).
  cbn [concat_call_expected] in Hp.
  destruct files; [discriminate Hp|].
  split; [discriminate | apply String.eqb_eq, Hp].
Qed.
End RunFacts.

Lemma extract_segments_files_witness :
  ["/tmp/derusher_k3x/segment_0000.mp4";
   "/tmp/derusher_k3x/segment_0001.mp4"] =
  map (segment_file_name "/tmp/derusher_k3x")
    (seq 0 (length [(0, 1); (2, 3)])).
Proof.
  apply (extract_segments_files talk_world talk_worker
           "/tmp/derusher_k3x" {| duration := 10 |} [(0, 1); (2, 3)]
           ["/tmp/derusher_k3x/segment_0000.mp4";
            "/tmp/derusher_k3x/segment_0001.mp4"]
           workspace_state
           (snd (extract_segments talk_world talk_worker
                   "/tmp/derusher_k3x" {| duration := 10 |} 2 0
                   [(0, 1); (2, 3)] [] workspace_state))).
  vm_compute. reflexivity.
Defined.

(** ** Progress *)

Lemma ascending_bounds (l : list Z) (lo hi : Z) :
  ascending_between lo hi l -> (lo <= hi)%Z.
Proof.
  revert lo. induction l as [|v t IH]; intros lo H; simpl in H;
    [exact H|]. destruct H as [H1 H2]. apply IH in H2. lia.
Qed.

Lemma ascending_weaken (l : list Z) (lo lo' hi hi' : Z) :
  (lo' <= lo)%Z -> (hi <= hi')%Z ->
  ascending_between lo hi l -> ascending_between lo' hi' l.
Proof.
  revert lo lo'. induction l as [|v t IH]; intros lo lo' Hlo Hhi H;
    simpl in *; [lia|].
  destruct H as [H1 H2]. split; [lia|].
  apply (IH v v); [lia | exact Hhi | exact H2].
Qed.

Lemma ascending_app (l1 l2 : list Z) (a b c : Z) :
  ascending_between a b l1 -> ascending_between b c l2 ->
  ascending_between a c (l1 ++ l2).
Proof.
  revert a. induction l1 as [|v t IH]; intros a H1 H2; simpl in *.
  - apply (ascending_weaken l2 b a c c); [exact H1 | lia | exact H2].
  - destruct H1 as [Hv Ht]. split; [exact Hv | apply IH; assumption].
Qed.

Lemma ascending_sorted (l : list Z) (lo hi : Z) :
  ascending_between lo hi l ->
  Sorted Z.le l /\ Forall (fun v => (lo <= v <= hi)%Z) l.
Proof.
  revert lo. induction l as [|v t IH]; intros lo H; simpl in H.
  - split; constructor.
  - destruct H as [Hv Ht]. pose proof (ascending_bounds _ _ _ Ht) as Hb.
    destruct (IH v Ht) as [Hs Hall]. split.
    + constructor; [exact Hs|]. destruct t as [|u t']; constructor.
      simpl in Ht. tauto.
    + constructor; [lia|].
      eapply Forall_impl; [|exact Hall]. simpl. intros; lia.
Qed.

Lemma progress_values_app (a b : list event) :
  progress_values (a ++ b) = progress_values a ++ progress_values b.
Proof.
  induction a as [|e t IH]; simpl; [reflexivity|].
  destruct e; simpl; rewrite IH; reflexivity.
Qed.

Lemma progress_values_none (evs : list event) :
  forallb not_progress evs = true -> progress_values evs = [].
Proof.
  induction evs as [|e t IH]; simpl; [reflexivity|].
  intros H. apply andb_prop in H. destruct H as [He Ht].
  destruct e; try discriminate He; apply IH, Ht.
Qed.

Lemma progress_within_quiet {A : Type} (lo hi : Z) (m : M A) :
  only_emits not_progress m -> (lo <= hi)%Z -> progress_within lo hi m.
Proof.
  intros Hm Hle st. destruct (Hm st) as [evs [Ht Hp]].
  exists evs. split; [exact Ht|].
  rewrite (progress_values_none _ Hp). exact Hle.
Qed.

Lemma progress_within_bind {A B : Type} (a b c : Z) (m : M A)
    (k : A -> M B) :
  (b <= c)%Z ->
  progress_within a b m -> (forall x, progress_within b c (k x)) ->
  progress_within a c (bind m k).
Proof.
  intros Hbc Hm Hk st. unfold bind.
  destruct (Hm st) as [evs [Ht Hp]].
  destruct (m st) as [[x|e] st1]; simpl in Ht.
  - destruct (Hk x st1) as [evs' [Ht' Hp']].
    exists (evs ++ evs'). rewrite Ht', Ht, app_assoc.
    split; [reflexivity|]. rewrite progress_values_app.
    apply (ascending_app _ _ a b c); assumption.
  - exists evs. split; [exact Ht|].
    apply (ascending_weaken _ a a b c); [lia | exact Hbc | exact Hp].
Qed.

Lemma progress_within_try_except {A : Type} (a b c : Z) (m : M A)
    (handles : exn -> bool) (h : exn -> M A) :
  (b <= c)%Z ->
  progress_within a b m -> (forall e, progress_within b c (h e)) ->
  progress_within a c (try_except m handles h).
Proof.
  intros Hbc Hm Hh st. unfold try_except.
  destruct (Hm st) as [evs [Ht Hp]].
  assert (Hw : ascending_between a c (progress_values evs))
    by (apply (ascending_weaken _ a a b c); [lia | exact Hbc | exact Hp]).
  destruct (m st) as [[x|e] st1]; simpl in Ht.
  - exists evs. split; assumption.
  - destruct (handles e).
    + destruct (Hh e st1) as [evs' [Ht' Hp']].
      exists (evs ++ evs'). rewrite Ht', Ht, app_assoc.
      split; [reflexivity|]. rewrite progress_values_app.
      apply (ascending_app _ _ a b c); assumption.
    + exists evs. split; assumption.
Qed.

Lemma py_int_floor (x : Q) : 0 <= x -> py_int x = Qfloor x.
Proof.
  destruct x as [num den]. unfold Qle, py_int, Qfloor. simpl. intros H.
  apply Z.quot_div_nonneg; lia.
Qed.

Lemma loop_fraction_nonneg (n i : nat) :
  0 <= inject_Z (Z.of_nat (i + 1)) / inject_Z (Z.of_nat n).
Proof.
  apply Qmult_le_0_compat.
  - change 0 with (inject_Z 0). rewrite <- Zle_Qle. lia.
  - apply Qinv_le_0_compat. change 0 with (inject_Z 0).
    rewrite <- Zle_Qle. lia.
Qed.

Lemma loop_progress_floor (n i : nat) :
  loop_progress n i =
  Qfloor (30 + (inject_Z (Z.of_nat (i + 1)) / inject_Z (Z.of_nat n)) * 50).
Proof.
  unfold loop_progress. apply py_int_floor.
  pose proof (loop_fraction_nonneg n i). nra.
Qed.

Lemma loop_progress_lower (n i : nat) : (30 <= loop_progress n i)%Z.
Proof.
  rewrite loop_progress_floor.
  apply Z.le_trans with (Qfloor (inject_Z 30)); [rewrite Qfloor_Z; lia|].
  apply Qfloor_resp_le.
  pose proof (loop_fraction_nonneg n i).
  change (inject_Z 30) with 30. nra.
Qed.

Lemma loop_progress_upper (n i : nat) :
  (i + 1 <= n)%nat -> (loop_progress n i <= 80)%Z.
Proof.
  intros H. rewrite loop_progress_floor.
  apply Z.le_trans with (Qfloor (inject_Z 80)); [|rewrite Qfloor_Z; lia].
  apply Qfloor_resp_le.
  assert (Hq : inject_Z (Z.of_nat (i + 1)) / inject_Z (Z.of_nat n) <= 1).
  { apply Qle_shift_div_r.
    - change 0 with (inject_Z 0). rewrite <- Zlt_Qlt. lia.
    - rewrite Qmult_1_l. rewrite <- Zle_Qle. lia. }
  change (inject_Z 80) with 80. nra.
Qed.

Lemma loop_progress_mono (n i : nat) :
  (loop_progress n i <= loop_progress n (S i))%Z.
Proof.
  rewrite !loop_progress_floor. apply Qfloor_resp_le.
  assert (Hq : inject_Z (Z.of_nat (i + 1)) / inject_Z (Z.of_nat n) <=
               inject_Z (Z.of_nat (S i + 1)) / inject_Z (Z.of_nat n)).
  { apply Qmult_le_compat_r.
    - rewrite <- Zle_Qle. lia.
    - apply Qinv_le_0_compat. change 0 with (inject_Z 0).
      rewrite <- Zle_Qle. lia. }
  nra.
Qed.

Section ProgressFacts.
Context {ops : FloatOps}.
Variable w : World.
Variable self : DerushWorker.

Lemma update_progress_within (lo v hi : Z) :
  (lo <= v <= hi)%Z -> progress_within lo hi (update_progress w v).
Proof.
  intros H st. unfold update_progress.
  destruct (progress_callback w) as [callback|].
  - exists [ProgressCallback v]. split; [reflexivity|]. simpl. lia.
  - exists []. simpl. rewrite app_nil_r. split; [reflexivity | lia].
Qed.

Ltac quiet :=
  solve [ apply progress_within_quiet;
          [ emits;
            try (apply remove_each_emits; reflexivity);
            try (apply missing_among_emits; reflexivity)
          | lia ] ].

Ltac quiet_then :=
  match goal with
  | |- progress_within ?lo ?hi (bind _ _) =>
      apply (progress_within_bind lo lo hi); [lia | quiet | intros ?]
  end.

Ltac split_scrutinee :=
  match goal with
  | |- progress_within _ _ (match ?x with _ => _ end) => destruct x
  end.

Ltac update_then v :=
  match goal with
  | |- progress_within ?lo ?hi (bind _ _) =>
      apply (progress_within_bind lo v hi);
      [lia | apply update_progress_within; lia | intros _]
  end.

Lemma extract_segments_progress (d : string) (video : VideoClip)
    (n : nat) (ranges : list range) :
  forall (i : nat) (acc : list string) (lo : Z),
  (i + length ranges <= n)%nat ->
  (lo <= loop_progress n i)%Z -> (lo <= 80)%Z ->
  progress_within lo 80 (extract_segments w self d video n i ranges acc).
Proof.
  induction ranges as [|[s e] rest IH]; intros i acc lo Hn Hlo Hhi;
    cbn [extract_segments]; [quiet|].
  simpl in Hn.
  pose proof (loop_progress_upper n i ltac:(lia)) as Hup.
  pose proof (loop_progress_mono n i) as Hmono.
  quiet_then. split_scrutinee; [|quiet].
  apply (progress_within_bind lo (loop_progress n i) 80);
    [lia | apply update_progress_within; fold (loop_progress n i); lia
    | intros _].
  apply IH; lia.
Qed.

Lemma run_try_progress : progress_within 5 100 (run_try w self).
Proof.
  unfold run_try. apply (progress_within_bind 5 25 100); [lia| |].
  - unfold load_and_analyse.
    quiet_then. update_then 5%Z. quiet_then. update_then 10%Z.
    quiet_then. quiet_then. quiet_then. update_then 25%Z. quiet_then.
    split_scrutinee. quiet_then. quiet.
  - intros [[d video] [|r ranges]]; [quiet|].
    quiet_then. update_then 30%Z.
    apply (progress_within_bind 30 80 100); [lia| |intros files].
    + apply extract_segments_progress;
        [simpl; lia | apply loop_progress_lower | lia].
    + quiet_then. split_scrutinee; [|quiet].
      update_then 95%Z. quiet_then. quiet_then. quiet_then.
      update_then 100%Z. quiet.
Qed.

(** X18. Progress never goes backwards: in every run, whatever the world
    does, the values handed to the progress callback never decrease and
    lie between 5 and 100. *)
Theorem run_progress_monotone (st : run_state) :
  exists evs,
    trace (snd (run w self st)) = trace st ++ evs /\
    Sorted Z.le (progress_values evs) /\
    Forall (fun v => (5 <= v <= 100)%Z) (progress_values evs).
Proof.
  assert (H : progress_within 5 100 (run w self)).
  { unfold run. apply (progress_within_try_except 5 100 100);
      [lia | apply run_try_progress | intros e; quiet]. }
  destruct (H st) as [evs [Ht Ha]]. exists evs.
  split; [exact Ht | apply ascending_sorted, Ha].
Qed.
End ProgressFacts.

(** * The entry points *)

Section EntryPoints.
Context {ops : FloatOps}.

(** X19. Without ffmpeg (the probe exits with a non-zero code or the
    binary is not found), [process_video] raises its [RuntimeError] before
    anything else happens: no workspace is created and the world is left
    as it was. *)
Theorem process_video_without_ffmpeg (probe : result Z) (w : World)
    (history : list event) (path : string) (a b c d : Q) :
  (exists msg, probe = Raise (FileNotFoundError msg)) \/
  (exists returncode, probe = Ok returncode /\ returncode <> 0%Z) ->
  process_video probe w history path a b c d =
  (Raise ffmpeg_not_installed, fresh_state history).
Proof.
  intros [[msg ->]|[rc [-> Hrc]]]; unfold process_video; simpl;
    [reflexivity|].
  destruct (rc =? 0)%Z eqn:E; [apply Z.eqb_eq in E; contradiction|].
  reflexivity.
Qed.

(** X20. [derush_existing_video] returns a path only if that path is the
    input path without its extension followed by [_derushed.mp4]; it
    raises only what its own ffmpeg probe raised, other than
    [FileNotFoundError]; and when the video is not there it does nothing
    but test for it. *)
Theorem derush_existing_video_result (probe probe' : result Z) (w : World)
    (path : string) :
  let out := derush_existing_video probe probe' w path in
  (forall p, fst out = Ok (Some p) -> p = output_path_of path) /\
  (forall e, fst out = Raise e ->
     probe = Raise e /\ is_FileNotFoundError e = false) /\
  (check_ffmpeg_installed probe = Ok true ->
   os_path_exists w [] path = false ->
   out = (Ok None, [OsPathExists path])).
Proof.
  cbv zeta. unfold derush_existing_video.
  split; [|split].
  - intros p H.
    destruct (check_ffmpeg_installed probe) as [[|]|e]; try discriminate H.
    destruct (os_path_exists w [] path); [|discriminate H].
    unfold process_video in H.
    destruct (check_ffmpeg_installed probe') as [[|]|e];
      try discriminate H.
    destruct (run _ _ _) as [[q|e] st] eqn:E; [|discriminate H].
    simpl in H. injection H as <-.
    apply run_Ok_inv, run_try_result in E. exact E.
  - intros e H. destruct probe as [rc|e']; simpl in H.
    + destruct (rc =? 0)%Z; [|discriminate H].
      destruct (os_path_exists w [] path); [|discriminate H].
      destruct (process_video _ _ _ _ _ _ _ _) as [[q|e'] st];
        discriminate H.
    + destruct e'; simpl in H; try discriminate H;
        injection H as <-; split; reflexivity.
  - intros Hc Hno. rewrite Hc, Hno. reflexivity.
Qed.
End EntryPoints.

Lemma process_video_without_ffmpeg_witness :
  @process_video example_ops (Ok 127%Z) talk_world [] "/videos/talk.mov"
    400 (-45) (-10) 600 =
  (Raise ffmpeg_not_installed, fresh_state []).
Proof.
  apply (@process_video_without_ffmpeg example_ops).
  right. exists 127%Z. split; [reflexivity | discriminate].
Defined.

(** ** [list_temp_videos] *)

Lemma str_length_app (a b : string) :
  String.length (a ++ b)%string = (String.length a + String.length b)%nat.
Proof. induction a as [|c t IH]; simpl; [reflexivity | rewrite IH; reflexivity]. Qed.

Lemma str_drop_app (a b : string) :
  str_drop (String.length a) (a ++ b)%string = b.
Proof.
  induction a as [|c t IH]; simpl; [destruct b; reflexivity | exact IH].
Qed.

(** [endswith] is true exactly of the strings that end with the suffix. *)
Lemma endswith_iff (s suffix : string) :
  endswith s suffix = true <-> exists a, s = (a ++ suffix)%string.
Proof.
  unfold endswith. split.
  - intros H. apply andb_prop in H. destruct H as [_ H].
    apply String.eqb_eq in H.
    exists (str_take (String.length s - String.length suffix) s).
    rewrite <- H at 2. symmetry. apply str_take_drop.
  - intros [a ->]. rewrite str_length_app. apply andb_true_intro. split.
    + apply Nat.leb_le. lia.
    + replace (String.length a + String.length suffix
               - String.length suffix)%nat with (String.length a) by lia.
      rewrite str_drop_app. apply String.eqb_refl.
Qed.

(** X21. [list_temp_videos] lists names of the directory that end with
    [.mp4], and never an output of the derusher: no listed name is the
    output path derived from any input. *)
Theorem list_temp_videos_listed (listing : result (list string))
    (makedirs : result unit) (names : list string) (f : string) :
  list_temp_videos listing makedirs = Ok names -> In f names ->
  (exists all, listing = Ok all /\ In f all) /\
  (exists a, f = (a ++ ".mp4")%string) /\
  (forall q, f <> output_path_of q).
Proof.
  unfold list_temp_videos. intros H Hf.
  destruct listing as [all|e].
  - injection H as <-. apply filter_In in Hf. destruct Hf as [Hin Hb].
    apply andb_prop in Hb. destruct Hb as [H1 H2].
    apply negb_true_iff in H2.
    split; [exists all; auto|]. split; [apply endswith_iff, H1|].
    intros q ->.
    assert (Ht : endswith (output_path_of q) "_derushed.mp4" = true)
      by (apply endswith_iff; exists (fst (splitext q)); reflexivity).
    congruence.
  - destruct e; try discriminate H. destruct makedirs; [|discriminate H].
    injection H as <-. destruct Hf.
Qed.

Lemma list_temp_videos_listed_witness :
  (exists all,
     Ok ["talk.mp4"; "talk_derushed.mp4"; "notes.txt"] = Ok all /\
     In "talk.mp4" all) /\
  (exists a, "talk.mp4" = (a ++ ".mp4")%string) /\
  (forall q, "talk.mp4" <> output_path_of q).
Proof.
  apply (list_temp_videos_listed
           (Ok ["talk.mp4"; "talk_derushed.mp4"; "notes.txt"]) (Ok tt)
           ["talk.mp4"] "talk.mp4").
  - reflexivity.
  - left. reflexivity.
Defined.

(** * The choice of the streams *)

Lemma derush_existing_video_result_witness :
  "/videos/talk_derushed.mp4" = output_path_of "/videos/talk.mov".
Proof.
  apply (proj1 (@derush_existing_video_result example_ops (Ok 0%Z) (Ok 0%Z)
                  soft_speech_world "/videos/talk.mov")).
  vm_compute. reflexivity.
Defined.

(** The fallback loop keeps the first variant of the highest positive
    bandwidth. *)
Lemma highest_loop (playlists : list Playlist) (h : Z) (v : option string) :
  let '(h', v') := fold_left highest_step playlists (h, v) in
  (h <= h')%Z /\
  Forall (fun pl => (pl_bandwidth pl <= h')%Z) playlists /\
  ((h' = h /\ v' = v) \/
   (h < h')%Z /\ exists pl, In pl playlists /\ pl_bandwidth pl = h' /\
                            v' = Some (pl_uri pl)).
Proof.
  revert h v. induction playlists as [|pl rest IH]; intros h v.
  - simpl. split; [lia|]. split; [constructor | left; auto].
  - cbn [fold_left]. unfold highest_step at 2.
    destruct (h <? pl_bandwidth pl)%Z eqn:E.
    + apply Z.ltb_lt in E.
      specialize (IH (pl_bandwidth pl) (Some (pl_uri pl))).
      destruct (fold_left highest_step rest _) as [h' v'].
      destruct IH as [Hle [Hall Hcase]].
      split; [lia|]. split; [constructor; [lia | exact Hall]|].
      right. split; [lia|].
      destruct Hcase as [[-> ->]|[Hlt [pl' [Hin [Hb Hv]]]]].
      * exists pl. split; [left; reflexivity | auto].
      * exists pl'. split; [right; exact Hin | auto].
    + apply Z.ltb_ge in E. specialize (IH h v).
      destruct (fold_left highest_step rest _) as [h' v'].
      destruct IH as [Hle [Hall Hcase]].
      split; [exact Hle|]. split; [constructor; [lia | exact Hall]|].
      destruct Hcase as [[-> ->]|[Hlt [pl' [Hin [Hb Hv]]]]];
        [left; auto | right].
      split; [exact Hlt|]. exists pl'. split; [right; exact Hin | auto].
Qed.

(** X22. The video variant chosen is one of the playlist: the first with
    the requested bandwidth if there is one, and otherwise one whose
    bandwidth is positive and the highest of all. *)
Theorem select_video_uri_chosen (playlists : list Playlist)
    (variant_bandwidth : Z) (uri : string) :
  select_video_uri playlists variant_bandwidth = Ok uri ->
  exists pl, In pl playlists /\ pl_uri pl = uri /\
    (pl_bandwidth pl = variant_bandwidth \/
     (Forall (fun p => pl_bandwidth p <> variant_bandwidth) playlists /\
      (0 < pl_bandwidth pl)%Z /\
      Forall (fun p => (pl_bandwidth p <= pl_bandwidth pl)%Z) playlists)).
Proof.
  unfold select_video_uri, uri_with_bandwidth. intros H.
  destruct (find _ playlists) as [pl|] eqn:Ef; simpl in H.
  - injection H as <-. apply find_some in Ef. destruct Ef as [Hin Hb].
    apply Z.eqb_eq in Hb. exists pl. auto.
  - pose proof (highest_loop playlists 0 None) as Hl.
    destruct (fold_left highest_step playlists (0%Z, None)) as [h v].
    destruct Hl as [Hle [Hall Hcase]].
    destruct (h =? 0)%Z eqn:E0; [discriminate H|].
    apply Z.eqb_neq in E0.
    destruct Hcase as [[-> _]|[Hlt [pl [Hin [Hb ->]]]]]; [congruence|].
    injection H as <-. exists pl. split; [exact Hin|].
    split; [reflexivity|]. right. split; [|split].
    + apply Forall_forall. intros p Hp E.
      pose proof (find_none _ _ Ef p Hp) as Hn. simpl in Hn.
      apply Z.eqb_neq in Hn. contradiction.
    + lia.
    + rewrite Hb. exact Hall.
Qed.

(** X23. The choice of the video variant fails, with the error for a
    missing video track, exactly when no variant has the requested
    bandwidth and none has a positive bandwidth. *)
Theorem select_video_uri_fails_iff (playlists : list Playlist)
    (variant_bandwidth : Z) :
  select_video_uri playlists variant_bandwidth = Raise no_video_track <->
  Forall (fun p => pl_bandwidth p <> variant_bandwidth /\
                   (pl_bandwidth p <= 0)%Z) playlists.
Proof.
  unfold select_video_uri, uri_with_bandwidth.
  pose proof (highest_loop playlists 0 None) as Hl.
  destruct (fold_left highest_step playlists (0%Z, None)) as [h v].
  destruct Hl as [Hle [Hall Hcase]]. split.
  - intros H. destruct (find _ playlists) as [pl|] eqn:Ef;
      [discriminate H|]. simpl in H.
    destruct (h =? 0)%Z eqn:E0.
    + apply Z.eqb_eq in E0. subst h. apply Forall_forall. intros p Hp.
      rewrite Forall_forall in Hall. split; [|apply Hall, Hp].
      pose proof (find_none _ _ Ef p Hp) as Hn. simpl in Hn.
      apply Z.eqb_neq, Hn.
    + destruct v; discriminate H.
  - intros Hno. rewrite Forall_forall in Hno.
    destruct (find _ playlists) as [pl|] eqn:Ef.
    + apply find_some in Ef. destruct Ef as [Hin Hb].
      apply Z.eqb_eq in Hb. destruct (Hno pl Hin). contradiction.
    + simpl. destruct Hcase as [[-> _]|[Hlt [pl [Hin [Hb _]]]]];
        [reflexivity|].
      destruct (Hno pl Hin). lia.
Qed.

(** X24. The audio rendition chosen is of type [AUDIO]; a rendition with
    a true [default] is preferred to any other, also to an earlier one;
    and the choice fails exactly when there is no [AUDIO] rendition. *)
Theorem select_audio_uri_chosen (media : list Media) :
  (forall uri, select_audio_uri media = Ok uri ->
     exists m, In m media /\ m_uri m = uri /\ m_type m = "AUDIO" /\
       (truthy (m_default m) = true \/
        Forall (fun m' => m_type m' = "AUDIO" ->
                          truthy (m_default m') = false) media)) /\
  (select_audio_uri media = Raise no_audio_track <->
   Forall (fun m => m_type m <> "AUDIO") media).
Proof.
  unfold select_audio_uri.
  destruct (find (fun m => String.eqb (m_type m) "AUDIO" &&
                           truthy (m_default m)) media) as [m|] eqn:Ed.
  - apply find_some in Ed. destruct Ed as [Hin Hb].
    apply andb_prop in Hb. destruct Hb as [Ht Hd].
    apply String.eqb_eq in Ht. split.
    + intros uri H. injection H as <-. exists m. auto.
    + split; [discriminate|]. intros Hno. rewrite Forall_forall in Hno.
      destruct (Hno m Hin Ht).
  - assert (Hnd : Forall (fun m' => m_type m' = "AUDIO" ->
                            truthy (m_default m') = false) media).
    { apply Forall_forall. intros m' Hin Ht.
      pose proof (find_none _ _ Ed m' Hin) as Hn. simpl in Hn.
      rewrite Ht in Hn. simpl in Hn. exact Hn. }
    destruct (find (fun m => String.eqb (m_type m) "AUDIO") media)
      as [m|] eqn:Ea.
    + apply find_some in Ea. destruct Ea as [Hin Ht].
      apply String.eqb_eq in Ht. split.
      * intros uri H. injection H as <-. exists m. auto.
      * split; [discriminate|]. intros Hno. rewrite Forall_forall in Hno.
        destruct (Hno m Hin Ht).
    + split; [discriminate|]. split; [intros _|reflexivity].
      apply Forall_forall. intros m Hin Ht.
      pose proof (find_none _ _ Ea m Hin) as Hn. simpl in Hn.
      rewrite Ht in Hn. discriminate Hn.
Qed.

Lemma select_video_uri_chosen_witness :
  exists pl,
    In pl [{| pl_uri := "v720.m3u8"; pl_bandwidth := 1500000 |};
           {| pl_uri := "v480.m3u8"; pl_bandwidth := 800000 |}] /\
    pl_uri pl = "v720.m3u8".
Proof.
  destruct (select_video_uri_chosen
              [{| pl_uri := "v720.m3u8"; pl_bandwidth := 1500000 |};
               {| pl_uri := "v480.m3u8"; pl_bandwidth := 800000 |}]
              3200000 "v720.m3u8") as [pl [Hin [Hu _]]].
  - reflexivity.
  - exists pl. split; assumption.
Defined.

(** * The housekeeping of the output directory *)

Section Housekeeping.
Variables now max_age_seconds : Q.

Lemma cleanup_step_removed (rep : CleanupReport) (e : DirEntry) :
  let rep' := fst (cleanup_step now max_age_seconds rep e) in
  removed rep' = removed rep \/
  (removed rep' = removed rep ++ [entry_name e] /\
   expired now max_age_seconds e = true /\ removable e = true).
Proof.
  unfold cleanup_step, expired, removable.
  destruct (entry_is_file e); [|left; reflexivity].
  destruct (entry_mtime e) as [m|x]; [|left; reflexivity].
  destruct (Qlt_bool max_age_seconds (now - m)); [|left; reflexivity].
  destruct (entry_size e) as [s|x]; [|left; reflexivity].
  destruct (entry_removal e) as [[]|x]; [right|left]; simpl; auto.
Qed.

Lemma cleanup_loop_removed (entries : list DirEntry) (rep : CleanupReport)
    (name : string) :
  In name (removed (fst (cleanup_loop now max_age_seconds entries rep))) ->
  In name (removed rep) \/
  exists e, In e entries /\ entry_name e = name /\
            expired now max_age_seconds e = true /\ removable e = true.
Proof.
  revert rep. induction entries as [|e rest IH]; intros rep H.
  - left. exact H.
  - cbn [cleanup_loop] in H.
    pose proof (cleanup_step_removed rep e) as Hs. cbv zeta in Hs.
    destruct (cleanup_step now max_age_seconds rep e) as [rep' [[]|x]];
      simpl in Hs.
    + destruct (IH rep' H) as [Hin|[e' [Hin He]]].
      * destruct Hs as [Hs|[Hs [Hx Hr]]]; rewrite Hs in Hin;
          [left; exact Hin|].
        apply in_app_or in Hin. destruct Hin as [Hin|[<-|[]]];
          [left; exact Hin | right].
        exists e. split; [left; reflexivity | auto].
      * right. exists e'. split; [right; exact Hin | exact He].
    + simpl in H. destruct Hs as [Hs|[Hs [Hx Hr]]]; rewrite Hs in H;
        [left; exact H|].
      apply in_app_or in H. destruct H as [H|[<-|[]]];
        [left; exact H | right].
      exists e. split; [left; reflexivity | auto].
Qed.

Lemma cleanup_loop_readable (entries : list DirEntry)
    (rep : CleanupReport) :
  Forall (readable now max_age_seconds) entries ->
  cleanup_loop now max_age_seconds entries rep =
  ({| removed :=
        removed rep ++
        map entry_name
          (filter (fun e => expired now max_age_seconds e && removable e)
                  entries);
      deleted_count :=
        (deleted_count rep +
         Z.of_nat (length (filter (fun e => expired now max_age_seconds e
                                            && removable e) entries)))%Z;
      total_size :=
        (total_size rep +
         fold_right Z.add 0%Z
           (map size_of (filter (expired now max_age_seconds) entries)))%Z
   |}, Ok tt).
Proof.
  revert rep. induction entries as [|e rest IH]; intros rep Hr.
  - simpl. rewrite app_nil_r, !Z.add_0_r. destruct rep; reflexivity.
  - inversion Hr as [|? ? [Hm Hs] Hrest]; subst.
    cbn [cleanup_loop filter]. unfold cleanup_step.
    destruct (entry_is_file e) eqn:Ef.
    2: { assert (Hx : expired now max_age_seconds e = false)
           by (unfold expired; rewrite Ef; reflexivity).
         rewrite Hx. cbn [andb]. apply IH, Hrest. }
    destruct (Hm eq_refl) as [m Em]. rewrite Em.
    destruct (Qlt_bool max_age_seconds (now - m)) eqn:Eq.
    2: { assert (Hx : expired now max_age_seconds e = false)
           by (unfold expired; rewrite Ef, Em, Eq; reflexivity).
         rewrite Hx. cbn [andb]. apply IH, Hrest. }
    assert (Hx : expired now max_age_seconds e = true)
      by (unfold expired; rewrite Ef, Em, Eq; reflexivity).
    destruct (Hs Hx) as [s Es]. rewrite Es, Hx. cbn [andb].
    assert (Hz : size_of e = s) by (unfold size_of; rewrite Es; reflexivity).
    destruct (entry_removal e) as [[]|x] eqn:Er.
    + assert (Hrm : removable e = true)
        by (unfold removable; rewrite Er; reflexivity).
      rewrite Hrm, (IH _ Hrest).
      cbn [removed deleted_count total_size map length fold_right].
      rewrite Hz, <- app_assoc. do 2 f_equal; lia.
    + assert (Hrm : removable e = false)
        by (unfold removable; rewrite Er; reflexivity).
      rewrite Hrm, (IH _ Hrest).
      cbn [removed deleted_count total_size map length fold_right].
      rewrite Hz. do 2 f_equal; lia.
Qed.
End Housekeeping.

(** X25. [cleanup_old_downloads] removes nothing but regular files
    strictly older than [max_age_hours]: whatever happens during the
    scan, every removed name is the name of a listed regular file whose
    age exceeds the limit. *)
Theorem cleanup_old_downloads_only_expired (dir_exists : bool)
    (listing : result (list DirEntry)) (now max_age_hours : Q)
    (name : string) :
  In name
    (removed (fst (cleanup_old_downloads dir_exists listing now
                     max_age_hours))) ->
  exists entries e mtime,
    listing = Ok entries /\ In e entries /\ entry_name e = name /\
    entry_is_file e = true /\ entry_mtime e = Ok mtime /\
    max_age_hours * 3600 < now - mtime.
Proof.
  unfold cleanup_old_downloads. intros H.
  destruct dir_exists; [|destruct H].
  destruct listing as [entries|x]; [|destruct H].
  apply cleanup_loop_removed in H. destruct H as [[]|[e [Hin [Hn [Hx _]]]]].
  unfold expired in Hx. apply andb_prop in Hx. destruct Hx as [Hf Hx].
  destruct (entry_mtime e) as [m|] eqn:Em; [|discriminate Hx].
  exists entries, e, m. apply Qlt_bool_iff in Hx. auto 10.
Qed.

(** X26. When the scan itself does not raise, [cleanup_old_downloads]
    removes every expired file that can be removed, also after a removal
    that failed; [deleted_count] counts the removed files, while
    [total_size] adds up the sizes of all expired files, removed or
    not. *)
Theorem cleanup_old_downloads_report (entries : list DirEntry)
    (now max_age_hours : Q) :
  Forall (readable now (max_age_hours * 3600)) entries ->
  let expired_files := filter (expired now (max_age_hours * 3600)) entries in
  let removed_files := filter removable expired_files in
  cleanup_old_downloads true (Ok entries) now max_age_hours =
  ({| removed := map entry_name removed_files;
      deleted_count := Z.of_nat (length removed_files);
      total_size := fold_right Z.add 0%Z (map size_of expired_files) |},
   Ok tt).
Proof.
  intros Hr. cbv zeta. unfold cleanup_old_downloads.
  rewrite (cleanup_loop_readable _ _ _ _ Hr). simpl.
  assert (E : filter removable
                (filter (expired now (max_age_hours * 3600)) entries) =
              filter (fun e => expired now (max_age_hours * 3600) e
                               && removable e) entries).
  { clear. induction entries as [|e rest IH]; simpl; [reflexivity|].
    destruct (expired now (max_age_hours * 3600) e); simpl;
      [destruct (removable e)|]; rewrite IH; reflexivity. }
  rewrite E. reflexivity.
Qed.

Lemma cleanup_old_downloads_only_expired_witness :
  exists entries e mtime,
    Ok example_outputs = Ok entries /\ In e entries /\
    entry_name e = "loom_old.mp4" /\
    entry_is_file e = true /\ entry_mtime e = Ok mtime /\
    24 * 3600 < 100000 - mtime.
Proof.
  apply (cleanup_old_downloads_only_expired true (Ok example_outputs)
           100000 24 "loom_old.mp4").
  vm_compute. left. reflexivity.
Defined.

Lemma cleanup_old_downloads_report_witness :
  cleanup_old_downloads true (Ok example_outputs) 100000 24 =
  ({| removed := ["loom_old.mp4"];
      deleted_count := 1;
      total_size := 3145728 |}, Ok tt).
Proof.
  rewrite (cleanup_old_downloads_report example_outputs 100000 24).
  - vm_compute. reflexivity.
  - repeat constructor; simpl; try (intros _; eexists; reflexivity).
Defined.

(** * The removal of sent files *)

Section SentFileFacts.
Variable w : World.

Lemma remove_if_exists_touches (f : string) (st : run_state) :
  exists evs,
    snd (remove_if_exists w f st) = with_trace st evs /\
    Forall (touches_only [f]) evs.
Proof.
  unfold remove_if_exists, bind, path_exists, call, remove.
  cbn [temp_dir temp_audio_path trace].
  destruct (os_path_exists w (trace st) f).
  - exists [OsPathExists f; OsRemove f]. split.
    + cbn [snd]. unfold with_trace. cbn. rewrite <- app_assoc. reflexivity.
    + repeat constructor; exists f; simpl; auto.
  - exists [OsPathExists f]. split; [reflexivity|].
    repeat constructor; exists f; simpl; auto.
Qed.

Lemma remove_if_exists_fails (f : string) (st : run_state) (e : exn) :
  os_path_exists w (trace st) f = true ->
  os_remove w (trace st ++ [OsPathExists f]) f = Raise e ->
  remove_if_exists w f st =
  (Raise e, with_trace st [OsPathExists f; OsRemove f]).
Proof.
  intros Hex He. unfold remove_if_exists, bind, path_exists, call.
  cbn [temp_dir temp_audio_path trace]. rewrite Hex.
  unfold remove, call. cbn [temp_dir temp_audio_path trace]. rewrite He.
  unfold with_trace. rewrite <- app_assoc. reflexivity.
Qed.

Lemma touches_only_incl (a b : list string) (e : event) :
  incl a b -> touches_only a e -> touches_only b e.
Proof. intros Hi [f [Hf He]]. exists f. split; [apply Hi, Hf | exact He]. Qed.

(** Up to and including a file that is there and cannot be removed, the
    loop raises and has touched that file and earlier ones only. *)
Lemma remove_existing_stops (pre post : list string) (f : string)
    (st : run_state) :
  (forall tr, os_path_exists w tr f = true) ->
  (forall tr, exists e, os_remove w tr f = Raise e) ->
  exists evs e,
    remove_existing w (pre ++ f :: post) st = (Raise e, with_trace st evs) /\
    Forall (touches_only (pre ++ [f])) evs.
Proof.
  intros Hex Hrm. revert st. induction pre as [|g pre IH]; intros st.
  - cbn [app remove_existing]. unfold bind at 1.
    destruct (Hrm (trace st ++ [OsPathExists f])) as [e He].
    rewrite (remove_if_exists_fails f st e (Hex _) He).
    exists [OsPathExists f; OsRemove f], e. split; [reflexivity|].
    repeat constructor; exists f; simpl; auto.
  - cbn [app remove_existing]. unfold bind at 1.
    destruct (remove_if_exists_touches g st) as [evs [Hs Ht]].
    destruct (remove_if_exists w g st) as [[[]|e] st1]; simpl in Hs;
      subst st1.
    + destruct (IH (with_trace st evs)) as [evs' [e [E Ht']]].
      exists (evs ++ evs'), e. rewrite E, with_trace_app.
      split; [reflexivity|]. apply Forall_app. split.
      * eapply Forall_impl; [|exact Ht]. intros ev.
        apply touches_only_incl. intros x [<-|[]]. left. reflexivity.
      * eapply Forall_impl; [|exact Ht']. intros ev.
        apply touches_only_incl. intros x Hx. right. exact Hx.
    + exists evs, e. split; [reflexivity|].
      eapply Forall_impl; [|exact Ht]. intros ev.
      apply touches_only_incl. intros x [<-|[]]. left. reflexivity.
Qed.

(** [cleanup_files] never raises. *)
Lemma cleanup_files_never_raises (file_paths : list string)
    (st : run_state) :
  fst (cleanup_files w file_paths st) = Ok tt.
Proof.
  unfold cleanup_files, try_except.
  destruct (remove_existing w file_paths st) as [[[]|e] st']; reflexivity.
Qed.

(** X28. [cleanup_files] stops at the first file that cannot be removed:
    the files after it are neither tested nor removed, and the call
    returns normally all the same. *)
Theorem cleanup_files_stops_at_failure (pre post : list string)
    (f : string) (st : run_state) :
  (forall tr, os_path_exists w tr f = true) ->
  (forall tr, exists e, os_remove w tr f = Raise e) ->
  exists evs,
    cleanup_files w (pre ++ f :: post) st = (Ok tt, with_trace st evs) /\
    Forall (touches_only (pre ++ [f])) evs.
Proof.
  intros Hex Hrm.
  destruct (remove_existing_stops pre post f st Hex Hrm)
    as [evs [e [E Ht]]].
  exists evs. split; [|exact Ht].
  unfold cleanup_files, try_except. rewrite E. reflexivity.
Qed.
End SentFileFacts.

Lemma cleanup_files_stops_at_failure_witness :
  exists evs,
    cleanup_files upload_locked
      ([] ++ "outputs/upload_1.mp4" :: ["outputs/upload_1_derushed.mp4"])
      (fresh_state []) = (Ok tt, with_trace (fresh_state []) evs) /\
    Forall (touches_only ([] ++ ["outputs/upload_1.mp4"])) evs.
Proof.
  apply (cleanup_files_stops_at_failure upload_locked []
           ["outputs/upload_1_derushed.mp4"] "outputs/upload_1.mp4"
           (fresh_state [])).
  - intros tr. reflexivity.
  - intros tr. eexists. reflexivity.
Defined.

(** * The cleanup of a successful run *)

Lemma returns_after_raise {A : Type} (e : event) (x : exn) :
  returns_after e (@raise A x).
Proof.
  intros st. exists []. simpl. rewrite app_nil_r.
  split; [reflexivity | discriminate].
Qed.

Lemma returns_after_later {A B : Type} (e : event) (m : M A)
    (k : A -> M B) :
  extends_trace m -> (forall a, returns_after e (k a)) ->
  returns_after e (bind m k).
Proof.
  intros Hm Hk st. unfold bind.
  destruct (Hm st) as [evs [Ht _]].
  destruct (m st) as [[a|x] st1]; simpl in Ht.
  - destruct (Hk a st1) as [evs' [Ht' Hin]].
    exists (evs ++ evs'). rewrite Ht', Ht, app_assoc.
    split; [reflexivity|]. intros b Hb. apply in_or_app. right.
    apply (Hin b Hb).
  - exists evs. split; [exact Ht | discriminate].
Qed.

Lemma returns_after_now {A B : Type} (e : event) (m : M A)
    (k : A -> M B) :
  returns_after e m -> (forall a, extends_trace (k a)) ->
  returns_after e (bind m k).
Proof.
  intros Hm Hk st. unfold bind.
  destruct (Hm st) as [evs [Ht Hin]].
  destruct (m st) as [[a|x] st1]; simpl in Ht, Hin.
  - destruct (Hk a st1) as [evs' [Ht' _]].
    exists (evs ++ evs'). rewrite Ht', Ht, app_assoc.
    split; [reflexivity|]. intros b _. apply in_or_app. left.
    apply (Hin a eq_refl).
  - exists evs. split; [exact Ht | discriminate].
Qed.

Section RunSuccess.
Context {ops : FloatOps}.
Variable w : World.
Variable self : DerushWorker.

Ltac extends :=
  solve [ try unfold extends_trace; emits;
          try (apply update_progress_emits; reflexivity);
          try (apply remove_each_emits; reflexivity);
          try (apply missing_among_emits; reflexivity) ].

Lemma extract_segments_extends (d : string) (video : VideoClip)
    (n : nat) (ranges : list range) :
  forall (i : nat) (acc : list string),
  extends_trace (extract_segments w self d video n i ranges acc).
Proof.
  induction ranges as [|[s e] rest IH]; intros i acc;
    cbn [extract_segments]; [extends|].
  unfold extends_trace. apply only_emits_bind; [extends | intros [|]].
  - apply only_emits_bind; [extends | intros _; apply IH].
  - apply only_emits_raise.
Qed.

Lemma cleanup_temp_directory_returns_after :
  returns_after CallCleanupTempDirectory (cleanup_temp_directory w).
Proof.
  intros st. destruct (cleanup_temp_directory_starts w st) as [evs Ht].
  exists (CallCleanupTempDirectory :: evs). split; [exact Ht|].
  intros _ _. left. reflexivity.
Qed.

Lemma run_try_returns_after_cleanup :
  returns_after CallCleanupTempDirectory (run_try w self).
Proof.
  unfold run_try.
  apply returns_after_later; [unfold load_and_analyse; extends|].
  intros [[d video] [|r ranges]]; [apply returns_after_raise|].
  apply returns_after_later; [extends | intros _].
  apply returns_after_later; [extends | intros _].
  apply returns_after_later; [apply extract_segments_extends | intros files].
  apply returns_after_later; [extends | intros [|]];
    [|apply returns_after_raise].
  apply returns_after_later; [extends | intros _].
  apply returns_after_later; [extends | intros audio].
  apply returns_after_later; [destruct audio; extends | intros _].
  apply returns_after_now;
    [apply cleanup_temp_directory_returns_after | intros _; extends].
Qed.

(** X29. A run that returns a path has gone through the removal of the
    workspace: whatever the world does, the trace of a successful run
    holds a call of [cleanup_temp_directory]. *)
Theorem run_success_cleans_workspace (st st' : run_state) (out : string) :
  run w self st = (Ok out, st') ->
  exists evs,
    trace st' = trace st ++ evs /\ In CallCleanupTempDirectory evs.
Proof.
  intros H. apply run_Ok_inv in H.
  destruct (run_try_returns_after_cleanup st) as [evs [Ht Hin]].
  rewrite H in Ht, Hin. exists evs. split; [exact Ht|].
  apply (Hin out eq_refl).
Qed.
End RunSuccess.

Lemma run_success_cleans_workspace_witness :
  exists evs,
    trace (snd (@run example_ops talk_world talk_worker initial_state)) =
      trace initial_state ++ evs /\
    In CallCleanupTempDirectory evs.
Proof.
  apply (@run_success_cleans_workspace example_ops talk_world talk_worker
           initial_state
           (snd (@run example_ops talk_world talk_worker initial_state))
           "/videos/talk_derushed.mp4").
  vm_compute. reflexivity.
Defined.

Lemma run_failure_cleanup_witness :
  exists st2 evs,
    @run example_ops third_extraction_fails talk_worker initial_state =
      (Raise extraction_failed, st2) /\
    forallb no_transcoding evs = true /\
    In CallCleanupTempDirectory evs.
Proof.
  destruct (@run_failure_cleanup example_ops third_extraction_fails
              talk_worker initial_state
              (snd (@run_try example_ops third_extraction_fails talk_worker
                      initial_state))
              extraction_failed)
    as [st2 [evs [Hrun [_ [Hq Hc]]]]].
  - vm_compute. reflexivity.
  - exists st2, evs. split; [exact Hrun|]. split; [exact Hq|].
    destruct Hc as [Hc|[p [err [_ Herr]]]]; [exact Hc|].
    vm_compute in Herr. discriminate Herr.
Defined.

(** * The order of the classifier's ranges *)

Lemma py_max_mono (a b b' : Q) : b <= b' -> py_max a b <= py_max a b'.
Proof.
  intros H. unfold py_max.
  destruct (Qlt_bool a b) eqn:E1, (Qlt_bool a b') eqn:E2;
    try apply Qlt_bool_iff in E1; try apply Qlt_bool_iff in E2; try lra.
  - unfold Qlt_bool in E2. rewrite negb_false_iff in E2.
    apply Qle_bool_iff in E2. lra.
Qed.

Lemma StronglySorted_snoc {A : Type} (R : A -> A -> Prop) (l : list A)
    (x : A) :
  StronglySorted R l -> Forall (fun y => R y x) l ->
  StronglySorted R (l ++ [x]).
Proof.
  induction 1 as [|h t Hs IH Hall]; intros Hx; simpl.
  - constructor; constructor.
  - inversion Hx as [|? ? Hh Ht]; subst.
    constructor; [apply IH, Ht|].
    apply Forall_app. split; [exact Hall | constructor; [exact Hh|constructor]].
Qed.

Lemma valid_windows_increasing_from {ops : FloatOps} (self : DerushWorker)
    (rms : list Q) (a : nat) :
  StronglySorted lt
    (map fst
       (filter (fun ir => Qlt_bool (min_threshold self) (snd ir) &&
                          Qlt_bool (snd ir) (max_threshold self))
               (combine (seq a (length rms)) rms))).
Proof.
  revert a. induction rms as [|r rest IH]; intros a; simpl;
    [constructor|].
  assert (Hall : Forall (lt a)
            (map fst
               (filter (fun ir => Qlt_bool (min_threshold self) (snd ir) &&
                                  Qlt_bool (snd ir) (max_threshold self))
                       (combine (seq (S a) (length rest)) rest)))).
  { apply Forall_forall. intros i Hi. apply in_map_iff in Hi.
    destruct Hi as [[i' q] [E Hi]]. simpl in E. subst i'.
    apply filter_In in Hi. destruct Hi as [Hi _].
    apply in_combine_l in Hi. apply in_seq in Hi. lia. }
  destruct (Qlt_bool (min_threshold self) r &&
            Qlt_bool r (max_threshold self)); simpl.
  - constructor; [apply IH | exact Hall].
  - apply IH.
Qed.

Section ClassifierOrder.
Context {ops : FloatOps}.
Variable self : DerushWorker.

Lemma range_start_mono (j k : nat) :
  (j <= k)%nat -> range_start self j <= range_start self k.
Proof.
  intros H. unfold range_start. apply py_max_mono.
  pose proof (window_time_mono j k H). lra.
Qed.

Lemma group_loop_sorted (others : list nat) (ranges : list range)
    (start_i prev_i : nat) :
  StronglySorted lt (prev_i :: others) ->
  (start_i <= prev_i)%nat ->
  StronglySorted start_le ranges ->
  Forall (fun r => fst r <= range_start self start_i) ranges ->
  let '(ranges', start_i', prev_i') :=
    fold_left (group_step self) others (ranges, start_i, prev_i) in
  StronglySorted start_le ranges' /\
  Forall (fun r => fst r <= range_start self start_i') ranges'.
Proof.
  revert ranges start_i prev_i.
  induction others as [|i t IH]; intros ranges start_i prev_i Hinc Hsp Hs Hb.
  - simpl. split; assumption.
  - cbn [fold_left]. inversion Hinc as [|? ? Hit Hpi]; subst.
    inversion Hpi as [|? ? Hlt _]; subst.
    unfold group_step at 2.
    destruct (1 <? Z.of_nat i - Z.of_nat prev_i)%Z.
    + fold (range_start self start_i).
      assert (Hmono : range_start self start_i <= range_start self i)
        by (apply range_start_mono; lia).
      destruct (Qle_bool _ _).
      * apply IH; [exact Hit | lia | |].
        -- apply StronglySorted_snoc; [exact Hs|].
           eapply Forall_impl; [|exact Hb]. intros r Hr.
           unfold start_le. simpl. exact Hr.
        -- apply Forall_app. split.
           ++ eapply Forall_impl; [|exact Hb]. simpl. intros r Hr. lra.
           ++ constructor; [simpl; exact Hmono | constructor].
      * apply IH; [exact Hit | lia | exact Hs|].
        eapply Forall_impl; [|exact Hb]. simpl. intros r Hr. lra.
    + apply IH; [exact Hit | lia | exact Hs | exact Hb].
Qed.

Lemma collect_ranges_sorted (valid_windows : list nat) (len : nat)
    (sample_rate : Z) :
  StronglySorted lt valid_windows ->
  StronglySorted start_le
    (collect_ranges self valid_windows len sample_rate).
Proof.
  intros Hinc. destruct valid_windows as [|first others]; [constructor|].
  unfold collect_ranges.
  pose proof (group_loop_sorted others [] first first Hinc (le_n _)
                (SSorted_nil _) (Forall_nil _)) as H.
  destruct (fold_left (group_step self) others ([], first, first))
    as [[ranges start_i] prev_i]. destruct H as [Hs Hb].
  destruct (Qle_bool _ _); [|exact Hs].
  apply StronglySorted_snoc; [exact Hs|].
  eapply Forall_impl; [|exact Hb]. intros r Hr. exact Hr.
Qed.

(** X30. The ranges the classifier hands to the merger are already in
    the order of their starts: the sort of the merger leaves them as they
    are. *)
Theorem classifier_ranges_sorted (rms : list Q) (len : nat)
    (sample_rate : Z) :
  let ranges :=
    collect_ranges self (valid_windows_of self rms) len sample_rate in
  StronglySorted start_le ranges /\ sorted_by_start ranges = ranges.
Proof.
  cbv zeta.
  assert (H : StronglySorted start_le
                (collect_ranges self (valid_windows_of self rms) len
                   sample_rate)).
  { apply collect_ranges_sorted. unfold valid_windows_of.
    apply valid_windows_increasing_from. }
  split; [exact H | apply sorted_by_start_id, H].
Qed.
End ClassifierOrder.
